(** * advanced-vector: RawMemory<T> and Vector<T> of src/advanced-vector/vector.h

    A shallow embedding of the two class templates and a verification of
    their exception-safety, growth and assignment properties.

    Memory.  A block obtained from [operator new] is a list of slots; a slot
    is [None] while it is raw memory and [Some v] while it holds a live
    object of value [v].  A [RawMemory] owns its block exclusively (the
    class is move-only), so the block is kept inside the record and a null
    [buffer_] is the empty list.  A [T*] into a block is the index of the
    slot; [begin()] is index 0 and [end()] is index [size_].  [size_t] is
    [nat]: every count in the code is the length of a block that exists.

    Element type.  The template parameter [T] is any type with the
    operations of class [Element]: a copy yields the value of its source and
    may throw; a move yields the value of its source, does not throw, and
    leaves the source holding [moved_from] of its value ([int] keeps its
    value, a [std::unique_ptr] becomes null).  Destructors do not throw.

    Effects.  Every operation on an element, every allocation and every
    deallocation is recorded in a log, most recent first.  Whether a copy or
    an allocation throws is a function of that log, which stands for any
    global state the element type keeps (a countdown of copies, say).

    Outcomes.  An operation returns, lets an exception propagate, or is
    undefined (a failed [assert], reading or destroying raw memory,
    constructing over a live object).  The state reached is part of the
    first two, so that what an exception leaves behind can be stated.

    Scope.  The functions of <memory> and <algorithm> that the classes call
    follow their description in the C++ standard.  Of class Vector the
    embedding has the copy and move constructors, the destructor, Size,
    Capacity, Swap, Reserve, both assignment operators, PushBack, PopBack,
    EmplaceBack, Emplace, Erase, Insert and ResizeToSmallerRhs; the
    constructor from a size, Resize and [operator[]] follow further down,
    for element types whose value-initialization runs no constructor, and
    the move operations of RawMemory in a variant with addresses. *)

From Stdlib Require Import ZArith.
From stdpp Require Import base option list gmap.

Set Implicit Arguments.
Unset Strict Implicit.

(** ** Events, element types, outcomes *)

Inductive Event (T : Type) : Type :=
| EvCopyCtor (v : T)       (* T(const T&) from an object of value v *)
| EvCopyThrow (v : T)      (* T(const T&) threw *)
| EvMoveCtor (v : T)       (* T(T&&) from an object of value v *)
| EvCopyAssign (v : T)     (* operator=(const T&) from an object of value v *)
| EvAssignThrow (v : T)    (* operator=(const T&) threw *)
| EvMoveAssign (v : T)     (* operator=(T&&) from an object of value v *)
| EvDtor (v : T)           (* ~T() of an object of value v *)
| EvAllocate (n : nat)     (* operator new for n elements *)
| EvAllocThrow (n : nat)   (* operator new threw std::bad_alloc *)
| EvDeallocate (blk : list (option T)). (* operator delete; the slots as they were *)

Arguments EvCopyCtor {T} v.
Arguments EvCopyThrow {T} v.
Arguments EvMoveCtor {T} v.
Arguments EvCopyAssign {T} v.
Arguments EvAssignThrow {T} v.
Arguments EvMoveAssign {T} v.
Arguments EvDtor {T} v.
Arguments EvAllocate {T} n.
Arguments EvAllocThrow {T} n.
Arguments EvDeallocate {T} blk.

Abbreviation Block T := (list (option T)).
Abbreviation Log T := (list (Event T)).

(** What the class templates ask of [T]. *)
Class Element (T : Type) : Type := {
  (* std::is_nothrow_move_constructible_v<T> *)
  is_nothrow_move_constructible : bool;
  (* std::is_copy_constructible_v<T> *)
  is_copy_constructible : bool;
  (* the value a moved-from object is left with *)
  moved_from : T -> T;
  (* does T(const T&) throw, given what happened so far and the source *)
  copy_throws : Log T -> T -> bool;
  (* does target = source throw, given what happened so far *)
  assign_throws : Log T -> T -> T -> bool
}.

(** The free store: does [operator new] for [n] elements throw. *)
Class Allocator (T : Type) : Type := {
  alloc_fails : Log T -> nat -> bool
}.

Inductive Outcome (S R : Type) : Type :=
| Returns (s : S) (r : R)
| Throws (s : S)
| Undefined.

Arguments Returns {S R} s r.
Arguments Throws {S R} s.
Arguments Undefined {S R}.

(** A [noexcept] step inside a throwing operation. *)
Definition noexcept {S S' R : Type} (o : option S) (k : S -> Outcome S' R) : Outcome S' R :=
  match o with
  | Some s => k s
  | None => Undefined
  end.

(** The argument of Insert and PushBack: [const T&] or [T&&], in both cases
    an object that lives outside the vector. *)
Inductive Arg (T : Type) : Type :=
| ByCopy (v : T)
| ByMove (v : T).

Arguments ByCopy {T} v.
Arguments ByMove {T} v.

Definition arg_value {T : Type} (a : Arg T) : T :=
  match a with
  | ByCopy v => v
  | ByMove v => v
  end.

Section Algorithms.
Context {T : Type} `{Element T}.

(** ** Operations on one object *)

(** [new (p) T(std::forward<Args>(args)...)] at slot [i]. *)
Definition construct_at (blk : Block T) (i : nat) (a : Arg T) (lg : Log T)
  : Outcome (Block T * Log T) unit :=
  match blk !! i with
  | Some None =>
      match a with
      | ByCopy v =>
          if copy_throws lg v then Throws (blk, EvCopyThrow v :: lg)
          else Returns (<[i := Some v]> blk, EvCopyCtor v :: lg) tt
      | ByMove v => Returns (<[i := Some v]> blk, EvMoveCtor v :: lg) tt
      end
  | _ => Undefined
  end.

(** [std::destroy_at(p)]. *)
Definition destroy_at (blk : Block T) (i : nat) (lg : Log T) : option (Block T * Log T) :=
  match blk !! i with
  | Some (Some v) => Some (<[i := None]> blk, EvDtor v :: lg)
  | _ => None
  end.

(** Placement new at [d] of [T(std::move(x))], [x] the object at [s] in
    another block. *)
Definition move_construct (src : Block T) (s : nat) (dst : Block T) (d : nat) (lg : Log T)
  : option (Block T * Block T * Log T) :=
  match src !! s, dst !! d with
  | Some (Some v), Some None =>
      Some (<[s := Some (moved_from v)]> src, <[d := Some v]> dst, EvMoveCtor v :: lg)
  | _, _ => None
  end.

(** Placement new at [d] of [T(std::move(x))], [x] the object at [s] in the
    same block. *)
Definition move_construct_within (blk : Block T) (s d : nat) (lg : Log T)
  : option (Block T * Log T) :=
  match blk !! s, blk !! d with
  | Some (Some v), Some None =>
      Some (<[d := Some v]> (<[s := Some (moved_from v)]> blk), EvMoveCtor v :: lg)
  | _, _ => None
  end.

(** [y = std::move(x)], [x] the object at [s] and [y] the object at [d] of
    the same block, [d <> s]. *)
Definition move_assign_within (blk : Block T) (s d : nat) (lg : Log T)
  : option (Block T * Log T) :=
  match blk !! s, blk !! d with
  | Some (Some v), Some (Some _) =>
      if decide (s = d) then None
      else Some (<[d := Some v]> (<[s := Some (moved_from v)]> blk), EvMoveAssign v :: lg)
  | _, _ => None
  end.

(** [y = x], [x] the object at [s] of another block and [y] the object at
    [d].  An assignment that throws leaves its target as it was. *)
Definition copy_assign_at (src : Block T) (s : nat) (dst : Block T) (d : nat) (lg : Log T)
  : Outcome (Block T * Log T) unit :=
  match src !! s, dst !! d with
  | Some (Some v), Some (Some w) =>
      if assign_throws lg w v then Throws (dst, EvAssignThrow v :: lg)
      else Returns (<[d := Some v]> dst, EvCopyAssign v :: lg) tt
  | _, _ => Undefined
  end.

(** ** The algorithms of <memory> and <algorithm> the classes call *)

(** [std::destroy_n(first, n)]. *)
Fixpoint destroy_n (blk : Block T) (first n : nat) (lg : Log T) : option (Block T * Log T) :=
  match n with
  | 0 => Some (blk, lg)
  | S n' =>
      '(blk', lg') ← destroy_at blk first lg;
      destroy_n blk' (S first) n' lg'
  end.

(** [std::uninitialized_copy_n(first, n, d_first)]: [cur] runs from
    [d_first]; when a copy throws, the objects constructed so far,
    [d_first .. cur), are destroyed and the exception is rethrown. *)
Fixpoint uninitialized_copy_loop (src : Block T) (first n : nat)
    (dst : Block T) (d_first cur : nat) (lg : Log T) : Outcome (Block T * Log T) unit :=
  match n with
  | 0 => Returns (dst, lg) tt
  | S n' =>
      match src !! first with
      | Some (Some v) =>
          match construct_at dst cur (ByCopy v) lg with
          | Returns (dst', lg') _ =>
              uninitialized_copy_loop src (S first) n' dst' d_first (S cur) lg'
          | Throws (dst', lg') =>
              noexcept (destroy_n dst' d_first (cur - d_first) lg') Throws
          | Undefined => Undefined
          end
      | _ => Undefined
      end
  end.

Definition uninitialized_copy_n (src : Block T) (first n : nat)
    (dst : Block T) (d_first : nat) (lg : Log T) : Outcome (Block T * Log T) unit :=
  uninitialized_copy_loop src first n dst d_first d_first lg.

(** [std::uninitialized_move_n(first, n, d_first)]. *)
Fixpoint uninitialized_move_n (src : Block T) (first n : nat)
    (dst : Block T) (d_first : nat) (lg : Log T) : option (Block T * Block T * Log T) :=
  match n with
  | 0 => Some (src, dst, lg)
  | S n' =>
      '(src', dst', lg') ← move_construct src first dst d_first lg;
      uninitialized_move_n src' (S first) n' dst' (S d_first) lg'
  end.

(** [std::move_backward(first, last, d_last)] inside one block:
    while [first != last], step [d_last] and [last] back and move-assign the
    object at [last] to the object at [d_last];
    [n] is [last - first]. *)
Fixpoint move_backward_loop (blk : Block T) (n last d_last : nat) (lg : Log T)
  : option (Block T * Log T) :=
  match n with
  | 0 => Some (blk, lg)
  | S n' =>
      '(blk', lg') ← move_assign_within blk (last - 1) (d_last - 1) lg;
      move_backward_loop blk' n' (last - 1) (d_last - 1) lg'
  end.

Definition move_backward (blk : Block T) (first last d_last : nat) (lg : Log T)
  : option (Block T * Log T) :=
  move_backward_loop blk (last - first) last d_last lg.

(** [std::move(first, last, d_first)] inside one block:
    while [first != last], move-assign the object at [first] to the object
    at [d_first] and step both forward;
    [n] is [last - first]. *)
Fixpoint move_loop (blk : Block T) (n first d_first : nat) (lg : Log T)
  : option (Block T * Log T) :=
  match n with
  | 0 => Some (blk, lg)
  | S n' =>
      '(blk', lg') ← move_assign_within blk first d_first lg;
      move_loop blk' n' (S first) (S d_first) lg'
  end.

Definition move_range (blk : Block T) (first last d_first : nat) (lg : Log T)
  : option (Block T * Log T) :=
  move_loop blk (last - first) first d_first lg.

(** [std::copy_n(first, n, result)], [first] in another block. *)
Fixpoint copy_n (src : Block T) (first n : nat) (dst : Block T) (result : nat) (lg : Log T)
  : Outcome (Block T * Log T) unit :=
  match n with
  | 0 => Returns (dst, lg) tt
  | S n' =>
      match copy_assign_at src first dst result lg with
      | Returns (dst', lg') _ => copy_n src (S first) n' dst' (S result) lg'
      | Throws s => Throws s
      | Undefined => Undefined
      end
  end.

End Algorithms.

(** ** class RawMemory *)

Record RawMemory (T : Type) : Type := {
  buffer_ : Block T;
  capacity_ : nat
}.

Record Vector (T : Type) : Type := {
  data_ : RawMemory T;
  size_ : nat
}.

Section Classes.
Context {T : Type} `{Element T} `{Allocator T}.

(** [RawMemory() = default]. *)
Definition RawMemory_default : RawMemory T :=
  {| buffer_ := []; capacity_ := 0 |}.

(** [Allocate(n)]: [operator new] unless [n] is 0; the null pointer is the
    empty block. *)
Definition Allocate (n : nat) (lg : Log T) : Outcome (Log T) (Block T) :=
  if n =? 0 then Returns lg []
  else if alloc_fails lg n then Throws (EvAllocThrow n :: lg)
  else Returns (EvAllocate n :: lg) (replicate n None).

(** [Deallocate(buf)]: [operator delete], which runs no destructor. *)
Definition Deallocate (buf : Block T) (lg : Log T) : Log T :=
  EvDeallocate buf :: lg.

(** [explicit RawMemory(size_t capacity)]. *)
Definition RawMemory_ctor (capacity : nat) (lg : Log T) : Outcome (Log T) (RawMemory T) :=
  match Allocate capacity lg with
  | Returns lg' buf => Returns lg' {| buffer_ := buf; capacity_ := capacity |}
  | Throws lg' => Throws lg'
  | Undefined => Undefined
  end.

(** [~RawMemory()]. *)
Definition RawMemory_dtor (m : RawMemory T) (lg : Log T) : Log T :=
  Deallocate (buffer_ m) lg.

(** [RawMemory::Swap(other)]: the pair is (this, other) afterwards. *)
Definition RawMemory_Swap (this other : RawMemory T) : RawMemory T * RawMemory T :=
  ({| buffer_ := buffer_ other; capacity_ := capacity_ other |},
   {| buffer_ := buffer_ this; capacity_ := capacity_ this |}).

(** [operator+(offset)]: [assert(offset <= capacity_)], then the address. *)
Definition RawMemory_plus (m : RawMemory T) (offset : nat) : option nat :=
  if offset <=? capacity_ m then Some offset else None.

(** The same memory after the objects in it changed. *)
Definition with_slots (m : RawMemory T) (blk : Block T) : RawMemory T :=
  {| buffer_ := blk; capacity_ := capacity_ m |}.

(** ** class Vector *)

(** [Vector() = default]. *)
Definition Vector_default : Vector T :=
  {| data_ := RawMemory_default; size_ := 0 |}.

Definition Size (this : Vector T) : nat := size_ this.

Definition Capacity (this : Vector T) : nat := capacity_ (data_ this).

(** [Vector(const Vector& other)].  When a copy throws, the member [data_]
    is destroyed; the destructor of Vector does not run. *)
Definition Vector_copy_ctor (other : Vector T) (lg : Log T) : Outcome (Log T) (Vector T) :=
  match RawMemory_ctor (size_ other) lg with
  | Returns lg0 data =>
      match uninitialized_copy_n (buffer_ (data_ other)) 0 (size_ other) (buffer_ data) 0 lg0 with
      | Returns (blk, lg1) _ =>
          Returns lg1 {| data_ := with_slots data blk; size_ := size_ other |}
      | Throws (blk, lg1) => Throws (RawMemory_dtor (with_slots data blk) lg1)
      | Undefined => Undefined
      end
  | Throws lg0 => Throws lg0
  | Undefined => Undefined
  end.

(** [~Vector()], then the destructor of the member [data_]. *)
Definition Vector_dtor (this : Vector T) (lg : Log T) : option (Log T) :=
  '(blk, lg') ← destroy_n (buffer_ (data_ this)) 0 (size_ this) lg;
  Some (RawMemory_dtor (with_slots (data_ this) blk) lg').

(** [Vector::Swap(other)]: the pair is (this, other) afterwards. *)
Definition Vector_Swap (this other : Vector T) : Vector T * Vector T :=
  let '(d, od) := RawMemory_Swap (data_ this) (data_ other) in
  ({| data_ := d; size_ := size_ other |}, {| data_ := od; size_ := size_ this |}).

(** [Reserve(new_capacity)]. *)
Definition Reserve (new_capacity : nat) (this : Vector T) (lg : Log T)
  : Outcome (Vector T * Log T) unit :=
  if new_capacity <=? capacity_ (data_ this) then Returns (this, lg) tt
  else
    match RawMemory_ctor new_capacity lg with
    | Throws lg0 => Throws (this, lg0)
    | Undefined => Undefined
    | Returns lg0 new_data =>
        let finish (old new : Block T) (lg1 : Log T) :=
          (* std::destroy_n(data_.GetAddress(), size_); data_.Swap(new_data);
             then new_data goes out of scope *)
          noexcept (destroy_n old 0 (size_ this) lg1) (fun '(old', lg2) =>
            let '(data, new_data') :=
              RawMemory_Swap (with_slots (data_ this) old') (with_slots new_data new) in
            Returns ({| data_ := data; size_ := size_ this |}, RawMemory_dtor new_data' lg2) tt) in
        if is_nothrow_move_constructible || negb is_copy_constructible then
          noexcept (uninitialized_move_n (buffer_ (data_ this)) 0 (size_ this)
                      (buffer_ new_data) 0 lg0)
            (fun '(old, new, lg1) => finish old new lg1)
        else
          match uninitialized_copy_n (buffer_ (data_ this)) 0 (size_ this)
                  (buffer_ new_data) 0 lg0 with
          | Returns (new, lg1) _ => finish (buffer_ (data_ this)) new lg1
          | Throws (new, lg1) =>
              (* new_data goes out of scope; this was not written to *)
              Throws (this, RawMemory_dtor (with_slots new_data new) lg1)
          | Undefined => Undefined
          end
    end.

(** [PopBack()]. *)
Definition PopBack (this : Vector T) (lg : Log T) : Outcome (Vector T * Log T) unit :=
  if 0 <? size_ this then
    noexcept (destroy_at (buffer_ (data_ this)) (size_ this - 1) lg) (fun '(blk, lg') =>
      Returns ({| data_ := with_slots (data_ this) blk; size_ := size_ this - 1 |}, lg') tt)
  else Returns (this, lg) tt.

(** [Emplace(pos, args...)]; the iterator it returns is an index. *)
Definition Emplace (pos : nat) (args : Arg T) (this : Vector T) (lg : Log T)
  : Outcome (Vector T * Log T) nat :=
  (* assert(pos >= begin() && pos <= end()) *)
  if negb (pos <=? size_ this) then Undefined
  else
    let position := pos in
    if size_ this =? Capacity this then
      match RawMemory_ctor (if size_ this =? 0 then 1 else size_ this * 2) lg with
      | Throws lg0 => Throws (this, lg0)
      | Undefined => Undefined
      | Returns lg0 new_data =>
          match construct_at (buffer_ new_data) position args lg0 with
          | Throws (new, lg1) => Throws (this, RawMemory_dtor (with_slots new_data new) lg1)
          | Undefined => Undefined
          | Returns (new, lg1) _ =>
              let finish (old new : Block T) (lg2 : Log T) :=
                (* std::destroy_n(begin(), size_); data_.Swap(new_data);
                   new_data goes out of scope; ++size_; return data_ + position *)
                noexcept (destroy_n old 0 (size_ this) lg2) (fun '(old', lg3) =>
                  let '(data, new_data') :=
                    RawMemory_Swap (with_slots (data_ this) old') (with_slots new_data new) in
                  noexcept (RawMemory_plus data position) (fun p =>
                    Returns ({| data_ := data; size_ := S (size_ this) |},
                             RawMemory_dtor new_data' lg3) p)) in
              if is_nothrow_move_constructible || negb is_copy_constructible then
                noexcept (uninitialized_move_n (buffer_ (data_ this)) 0 position new 0 lg1)
                  (fun '(old1, new1, lg2) =>
                noexcept (uninitialized_move_n old1 position (size_ this - position)
                            new1 (position + 1) lg2)
                  (fun '(old2, new2, lg3) => finish old2 new2 lg3))
              else
                (* try { prefix; suffix } catch (...) { destroy_n(new_data + position, 1); throw; } *)
                let handler '(new', lg') :=
                  noexcept (destroy_n new' position 1 lg') (fun '(new'', lg'') =>
                    Throws (this, RawMemory_dtor (with_slots new_data new'') lg'')) in
                match uninitialized_copy_n (buffer_ (data_ this)) 0 position new 0 lg1 with
                | Throws s => handler s
                | Undefined => Undefined
                | Returns (new1, lg2) _ =>
                    match uninitialized_copy_n (buffer_ (data_ this)) position
                            (size_ this - position) new1 (position + 1) lg2 with
                    | Throws s => handler s
                    | Undefined => Undefined
                    | Returns (new2, lg3) _ => finish (buffer_ (data_ this)) new2 lg3
                    end
                end
          end
      end
    else
      let construct (blk : Block T) (lg1 : Log T) :=
        (* new (data_ + position) T(args...); ++size_; return data_ + position *)
        noexcept (RawMemory_plus (data_ this) position) (fun p =>
          match construct_at blk p args lg1 with
          | Returns (blk', lg2) _ =>
              Returns ({| data_ := with_slots (data_ this) blk'; size_ := S (size_ this) |}, lg2) p
          | Throws (blk', lg2) =>
              Throws ({| data_ := with_slots (data_ this) blk'; size_ := size_ this |}, lg2)
          | Undefined => Undefined
          end) in
      if negb (size_ this =? 0) then
        noexcept (RawMemory_plus (data_ this) (size_ this)) (fun e =>
        (* new (data_ + size_) T(std::move(back)) *)
        noexcept (move_construct_within (buffer_ (data_ this)) (size_ this - 1) e lg)
          (fun '(blk1, lg1) =>
        (* std::move_backward(begin() + position, end(), end() + 1); moves do
           not throw, the catch clause is never entered *)
        noexcept (move_backward blk1 position (size_ this) (size_ this + 1) lg1)
          (fun '(blk2, lg2) =>
        noexcept (destroy_at blk2 position lg2)
          (fun '(blk3, lg3) => construct blk3 lg3))))
      else construct (buffer_ (data_ this)) lg.

(** [EmplaceBack(args...)]; the reference it returns is an index. *)
Definition EmplaceBack (args : Arg T) (this : Vector T) (lg : Log T)
  : Outcome (Vector T * Log T) nat :=
  if size_ this =? Capacity this then
    match Emplace (size_ this) args this lg with
    | Returns (this', lg') _ => Returns (this', lg') (size_ this' - 1)
    | Throws s => Throws s
    | Undefined => Undefined
    end
  else
    match construct_at (buffer_ (data_ this)) (size_ this) args lg with
    | Returns (blk, lg') _ =>
        Returns ({| data_ := with_slots (data_ this) blk; size_ := S (size_ this) |}, lg')
                (size_ this)
    | Throws (blk, lg') =>
        Throws ({| data_ := with_slots (data_ this) blk; size_ := size_ this |}, lg')
    | Undefined => Undefined
    end.

(** [PushBack(value)]. *)
Definition PushBack (value : Arg T) (this : Vector T) (lg : Log T)
  : Outcome (Vector T * Log T) unit :=
  match EmplaceBack value this lg with
  | Returns s _ => Returns s tt
  | Throws s => Throws s
  | Undefined => Undefined
  end.

(** [Erase(pos)]. *)
Definition Erase (pos : nat) (this : Vector T) (lg : Log T)
  : Outcome (Vector T * Log T) nat :=
  (* assert(pos >= begin() && pos < end()) *)
  if negb (pos <? size_ this) then Undefined
  else
    let position := pos in
    noexcept (move_range (buffer_ (data_ this)) (position + 1) (size_ this) position lg)
      (fun '(blk1, lg1) =>
    noexcept (destroy_at blk1 (size_ this - 1) lg1)
      (fun '(blk2, lg2) =>
        Returns ({| data_ := with_slots (data_ this) blk2; size_ := size_ this - 1 |}, lg2)
                position)).

(** [Insert(pos, const T&)] and [Insert(pos, T&&)]. *)
Definition Insert (pos : nat) (value : Arg T) (this : Vector T) (lg : Log T)
  : Outcome (Vector T * Log T) nat :=
  Emplace pos value this lg.

(** [ResizeToSmallerRhs(rhs)], [rhs] another object than [this]. *)
Definition ResizeToSmallerRhs (this rhs : Vector T) (lg : Log T)
  : Outcome (Vector T * Log T) unit :=
  let keep (blk : Block T) := {| data_ := with_slots (data_ this) blk; size_ := size_ this |} in
  match copy_n (buffer_ (data_ rhs)) 0 (size_ this `min` size_ rhs)
          (buffer_ (data_ this)) 0 lg with
  | Throws (blk, lg1) => Throws (keep blk, lg1)
  | Undefined => Undefined
  | Returns (blk, lg1) _ =>
      if size_ rhs <? size_ this then
        noexcept (destroy_n blk (size_ rhs) (size_ this - size_ rhs) lg1) (fun '(blk', lg2) =>
          Returns ({| data_ := with_slots (data_ this) blk'; size_ := size_ rhs |}, lg2) tt)
      else
        match uninitialized_copy_n (buffer_ (data_ rhs)) (size_ this)
                (size_ rhs - size_ this) blk (size_ this) lg1 with
        | Returns (blk', lg2) _ =>
            Returns ({| data_ := with_slots (data_ this) blk'; size_ := size_ rhs |}, lg2) tt
        | Throws (blk', lg2) => Throws (keep blk', lg2)
        | Undefined => Undefined
        end
  end.

(** ** Objects at addresses

    The operations whose behaviour depends on whether two references name
    the same object take the addresses of the objects in a store. *)

(** [Vector::Swap(other)] on the objects at [this] and [other]: the two
    statements of the body, each reading and writing the store. *)
Definition Swap (this other : nat) (st : gmap nat (Vector T)) : option (gmap nat (Vector T)) :=
  (* data_.Swap(other.data_) *)
  a ← st !! this;
  b ← st !! other;
  let '(d, od) := RawMemory_Swap (data_ a) (data_ b) in
  let st1 := <[other := {| data_ := od; size_ := size_ b |}]>
               (<[this := {| data_ := d; size_ := size_ a |}]> st) in
  (* std::swap(size_, other.size_) *)
  a1 ← st1 !! this;
  b1 ← st1 !! other;
  Some (<[other := {| data_ := data_ b1; size_ := size_ a1 |}]>
          (<[this := {| data_ := data_ a1; size_ := size_ b1 |}]> st1)).

(** [Vector(Vector&& other) noexcept], constructing at the free address
    [this]. *)
Definition Vector_move_ctor (this other : nat) (st : gmap nat (Vector T))
  : option (gmap nat (Vector T)) :=
  match st !! this with
  | None => Swap this other (<[this := Vector_default]> st)
  | Some _ => None
  end.

(** [operator=(const Vector& rhs)]. *)
Definition copy_assign (this rhs : nat) (st : gmap nat (Vector T)) (lg : Log T)
  : Outcome (gmap nat (Vector T) * Log T) unit :=
  match st !! this, st !! rhs with
  | Some a, Some b =>
      if decide (this ≠ rhs) then
        if capacity_ (data_ a) <? size_ b then
          match Vector_copy_ctor b lg with
          | Returns lg1 rhs_copy =>
              let '(a', rhs_copy') := Vector_Swap a rhs_copy in
              noexcept (Vector_dtor rhs_copy' lg1) (fun lg2 =>
                Returns (<[this := a']> st, lg2) tt)
          | Throws lg1 => Throws (st, lg1)
          | Undefined => Undefined
          end
        else
          match ResizeToSmallerRhs a b lg with
          | Returns (a', lg1) _ => Returns (<[this := a']> st, lg1) tt
          | Throws (a', lg1) => Throws (<[this := a']> st, lg1)
          | Undefined => Undefined
          end
      else Returns (st, lg) tt
  | _, _ => Undefined
  end.

(** [operator=(Vector&& rhs) noexcept]. *)
Definition move_assign (this rhs : nat) (st : gmap nat (Vector T))
  : option (gmap nat (Vector T)) :=
  if decide (this ≠ rhs) then Swap this rhs st
  else
    match st !! this with
    | Some _ => Some st
    | None => None
    end.

End Classes.

(** ** Valid states *)

Definition is_live {T : Type} (slot : option T) : bool :=
  match slot with
  | Some _ => true
  | None => false
  end.

Section Valid.
Context {T : Type}.

(** The invariant of the data model: the block has [capacity_] slots,
    [size_ <= capacity_], the slots below [size_] hold live objects and the
    slots from [size_] on are raw memory. *)
Definition valid (v : Vector T) : bool :=
  (length (buffer_ (data_ v)) =? capacity_ (data_ v))
  && (size_ v <=? capacity_ (data_ v))
  && forallb is_live (take (size_ v) (buffer_ (data_ v)))
  && forallb (fun slot => negb (is_live slot)) (drop (size_ v) (buffer_ (data_ v))).

(** The values of the live elements, in order. *)
Definition elements (v : Vector T) : list T :=
  omap id (take (size_ v) (buffer_ (data_ v))).

(** The valid vector with elements [xs] and capacity [cap]. *)
Definition vector_of (xs : list T) (cap : nat) : Vector T :=
  {| data_ := {| buffer_ := (Some <$> xs) ++ replicate (cap - length xs) None;
                 capacity_ := cap |};
     size_ := length xs |}.

End Valid.

(** ** Element types and a free store to run the code on *)

(** [int]: moving is copying and nothing throws. *)
#[export] Instance int_element : Element Z := {|
  is_nothrow_move_constructible := true;
  is_copy_constructible := true;
  moved_from := fun v => v;
  copy_throws := fun _ _ => false;
  assign_throws := fun _ _ _ => false
|}.

(** A test type whose copy constructor throws when the flag of the source is
    set, and whose move constructor is not declared [noexcept]. *)
Record Obj : Type := {
  ident : Z;
  throw_on_copy : bool
}.

#[export] Instance Obj_element : Element Obj := {|
  is_nothrow_move_constructible := false;
  is_copy_constructible := true;
  moved_from := fun v => v;
  copy_throws := fun _ v => throw_on_copy v;
  assign_throws := fun _ _ v => throw_on_copy v
|}.

(** [std::unique_ptr<int>]: [Some n] owns an int of value [n], [None] is the
    null pointer; the type is move-only and a moved-from pointer is null. *)
#[export] Instance unique_ptr_element : Element (option Z) := {|
  is_nothrow_move_constructible := true;
  is_copy_constructible := false;
  moved_from := fun _ => None;
  copy_throws := fun _ _ => false;
  assign_throws := fun _ _ _ => false
|}.

(** A free store that never runs out. *)
#[export] Instance plentiful {T : Type} : Allocator T := {|
  alloc_fails := fun _ _ => false
|}.

(** ** Definitions used to state the properties *)

Section Shapes.
Context {T : Type} `{Element T}.

(** The values in the slots [first .. last] after
    [std::move_backward(first, last, last + 1)], when the slots
    [first .. last) held [vs] and slot [last] held [w]. *)
Definition shifted_right (vs : list T) (w : T) : list T :=
  match vs with
  | [] => [w]
  | v :: _ => moved_from v :: vs
  end.

(** The values in the slots [first - 1 .. last) after
    [std::move(first, last, first - 1)], when slot [first - 1] held [w] and
    the slots [first .. last) held [vs]. *)
Definition shifted_left (w : T) (vs : list T) : list T :=
  match last vs with
  | None => [w]
  | Some v => vs ++ [moved_from v]
  end.

(** The elements once the last of them has been moved from. *)
Definition last_moved_from (xs : list T) : list T :=
  alter moved_from (length xs - 1) xs.

(** Does constructing an element from [a] throw, and the event when it
    does not. *)
Definition arg_throws (lg : Log T) (a : Arg T) : bool :=
  match a with
  | ByCopy v => copy_throws lg v
  | ByMove _ => false
  end.

Definition arg_event (a : Arg T) : Event T :=
  match a with
  | ByCopy v => EvCopyCtor v
  | ByMove v => EvMoveCtor v
  end.

End Shapes.

(** The capacity a full vector of [n] elements grows to. *)
Definition doubled (n : nat) : nat := if n =? 0 then 1 else n * 2.

(** Some copy or some allocation can throw. *)
Definition some_throw (T : Type) `{Element T} `{Allocator T} : Prop :=
  (exists lg v, copy_throws lg v = true) \/ (exists lg n, alloc_fails lg n = true).

Arguments some_throw T {_ _}.

Section Statements.
Context {T : Type} `{Element T} `{Allocator T}.

(** Some copy constructor or some copy assignment can throw. *)
Definition some_copy_throw : Prop :=
  (exists lg v, copy_throws lg v = true) \/ (exists lg w v, assign_throws lg w v = true).

(** What [operator=] logs when it reuses the storage of a vector holding
    [xs] for the elements [ys]: the copy assignments over the common prefix,
    then the destructors of the extra tail of [xs] or the copy constructors
    of the extra tail of [ys]. *)
Definition reuse_log (xs ys : list T) (lg : Log T) : Log T :=
  (if length ys <? length xs
   then EvDtor <$> reverse (drop (length ys) xs)
   else EvCopyCtor <$> reverse (drop (length xs) ys))
  ++ (EvCopyAssign <$> reverse (take (length xs `min` length ys) ys)) ++ lg.


(** The operations of the invariant, without their results. *)
Inductive Op : Type :=
| OpPushBack (value : Arg T)
| OpPopBack
| OpInsert (pos : nat) (value : Arg T)
| OpErase (pos : nat).

Definition forget {S R : Type} (o : Outcome S R) : Outcome S unit :=
  match o with
  | Returns s _ => Returns s tt
  | Throws s => Throws s
  | Undefined => Undefined
  end.

Definition apply_op (op : Op) (this : Vector T) (lg : Log T)
  : Outcome (Vector T * Log T) unit :=
  match op with
  | OpPushBack value => PushBack value this lg
  | OpPopBack => PopBack this lg
  | OpInsert pos value => forget (Insert pos value this lg)
  | OpErase pos => forget (Erase pos this lg)
  end.


(** A sequence of operations, as long as each of them returns. *)
Fixpoint run (ops : list Op) (this : Vector T) (lg : Log T)
  : Outcome (Vector T * Log T) unit :=
  match ops with
  | [] => Returns (this, lg) tt
  | op :: ops' =>
      match apply_op op this lg with
      | Returns (this', lg') _ => run ops' this' lg'
      | Throws s => Throws s
      | Undefined => Undefined
      end
  end.

(** The vector after each of a sequence of PushBack calls, up to the first
    that does not return. *)
Fixpoint push_trace (values : list (Arg T)) (this : Vector T) (lg : Log T)
  : list (Vector T) :=
  match values with
  | [] => []
  | value :: values' =>
      match PushBack value this lg with
      | Returns (this', lg') _ => this' :: push_trace values' this' lg'
      | _ => []
      end
  end.

End Statements.

Arguments Op T : clear implicits.
Arguments some_copy_throw T {_}.

(** ** Objects the examples run on *)

Definition obj_a : Obj := {| ident := 1; throw_on_copy := false |}.
Definition obj_b : Obj := {| ident := 2; throw_on_copy := true |}.
Definition obj_c : Obj := {| ident := 3; throw_on_copy := false |}.

(** Two vectors of ints at the addresses 0 and 1. *)
Definition two_vectors : gmap nat (Vector Z) :=
  <[0 := vector_of [1; 2; 3]%Z 4]> (<[1 := vector_of [7; 8]%Z 2]> ∅).

(** ** More of class Vector: construction from a size, Resize, indexing *)

(** Element types whose value-initialization runs no constructor (scalars
    such as [int], which it sets to zero): it cannot throw and is no
    operation of the class. *)
Class ValueInit (T : Type) : Type := {
  value_initialized : T
}.

#[export] Instance int_value_init : ValueInit Z := {|
  value_initialized := 0%Z
|}.

Section MoreOfVector.
Context {T : Type} `{Element T} `{Allocator T} `{ValueInit T}.

(** [std::uninitialized_value_construct_n(first, n)]. *)
Fixpoint uninitialized_value_construct_n (blk : Block T) (first n : nat)
  : option (Block T) :=
  match n with
  | 0 => Some blk
  | S n' =>
      match blk !! first with
      | Some None =>
          uninitialized_value_construct_n (<[first := Some value_initialized]> blk)
            (S first) n'
      | _ => None
      end
  end.


(** [Resize(new_size)]. *)
Definition Resize (new_size : nat) (this : Vector T) (lg : Log T)
  : Outcome (Vector T * Log T) unit :=
  if size_ this <? new_size then
    match Reserve new_size this lg with
    | Returns (this1, lg1) _ =>
        noexcept (uninitialized_value_construct_n (buffer_ (data_ this1)) (size_ this1)
                    (new_size - size_ this1))
          (fun blk =>
             Returns ({| data_ := with_slots (data_ this1) blk; size_ := new_size |}, lg1) tt)
    | Throws s => Throws s
    | Undefined => Undefined
    end
  else
    noexcept (destroy_n (buffer_ (data_ this)) new_size (size_ this - new_size) lg)
      (fun '(blk, lg1) =>
         Returns ({| data_ := with_slots (data_ this) blk; size_ := new_size |}, lg1) tt).

(** [RawMemory::operator[](index)]: [assert(index < capacity_)], then the
    object in the slot; reading raw memory is undefined. *)
Definition RawMemory_index (m : RawMemory T) (index : nat) : option T :=
  if index <? capacity_ m then buffer_ m !! index ≫= (fun slot => slot) else None.

(** [Vector::operator[](index)]: [assert(index < size_)], then
    [data_[index]]; the value of the element. *)
Definition Vector_index (this : Vector T) (index : nat) : option T :=
  if index <? size_ this then RawMemory_index (data_ this) index else None.

End MoreOfVector.

(** ** RawMemory with its block at an address

    The move operations of RawMemory hand a pointer from one object to
    another, and what they do shows only when two objects can hold the same
    address.  Here [buffer_] is an address ([None] is the null pointer), the
    heap is the set of the addresses allocated and not yet released, and
    [operator delete] of an address that is not in it is undefined. *)
Module Addressed.

Record RawMemory : Type := {
  buffer_ : option nat;
  capacity_ : nat
}.

(** [RawMemory() = default]. *)
Definition RawMemory_default : RawMemory :=
  {| buffer_ := None; capacity_ := 0 |}.

(** [Deallocate(buf)]: [operator delete]. *)
Definition Deallocate (buf : option nat) (heap : gset nat) : option (gset nat) :=
  match buf with
  | None => Some heap
  | Some p => if decide (p ∈ heap) then Some (heap ∖ {[p]}) else None
  end.

(** [~RawMemory()]. *)
Definition RawMemory_dtor (m : RawMemory) (heap : gset nat) : option (gset nat) :=
  Deallocate (buffer_ m) heap.

(** [Swap(other)] on the objects at [this] and [other]: the two
    [std::swap] of the body. *)
Definition Swap (this other : nat) (objs : gmap nat RawMemory) : option (gmap nat RawMemory) :=
  (* std::swap(buffer_, other.buffer_) *)
  a ← objs !! this;
  b ← objs !! other;
  let objs1 := <[other := {| buffer_ := buffer_ a; capacity_ := capacity_ b |}]>
                 (<[this := {| buffer_ := buffer_ b; capacity_ := capacity_ a |}]> objs) in
  (* std::swap(capacity_, other.capacity_) *)
  a1 ← objs1 !! this;
  b1 ← objs1 !! other;
  Some (<[other := {| buffer_ := buffer_ b1; capacity_ := capacity_ a1 |}]>
          (<[this := {| buffer_ := buffer_ a1; capacity_ := capacity_ b1 |}]> objs1)).

(** [RawMemory(RawMemory&& other) noexcept], constructing at the free
    address [this]. *)
Definition RawMemory_move_ctor (this other : nat) (objs : gmap nat RawMemory)
  : option (gmap nat RawMemory) :=
  match objs !! this with
  | None => Swap this other (<[this := RawMemory_default]> objs)
  | Some _ => None
  end.

(** [operator=(RawMemory&& rhs) noexcept]. *)
Definition move_assign (this rhs : nat) (objs : gmap nat RawMemory) (heap : gset nat)
  : option (gmap nat RawMemory * gset nat) :=
  if decide (this ≠ rhs) then
    a ← objs !! this;
    (* Deallocate(buffer_) *)
    heap1 ← Deallocate (buffer_ a) heap;
    (* capacity_ = 0 *)
    let objs1 := <[this := {| buffer_ := buffer_ a; capacity_ := 0 |}]> objs in
    objs2 ← Swap this rhs objs1;
    Some (objs2, heap1)
  else
    match objs !! this with
    | Some _ => Some (objs, heap)
    | None => None
    end.

End Addressed.

(** ** The operations on the list of elements *)


(** Two RawMemory objects at the addresses 0 and 1: the first owns the
    block at address 7, the second the block at address 9. *)
Definition two_memories : gmap nat Addressed.RawMemory :=
  <[0 := {| Addressed.buffer_ := Some 7; Addressed.capacity_ := 4 |}]>
    (<[1 := {| Addressed.buffer_ := Some 9; Addressed.capacity_ := 2 |}]> ∅).

(** * Verification *)

(** ** Lists of slots *)

Section Slots.
Context {A : Type}.
Implicit Types (l pre post : list A) (x y : A).

Lemma insert_middle pre x y post :
  <[length pre := y]> (pre ++ x :: post) = pre ++ y :: post.
Proof.
  rewrite insert_app_r_alt by lia. by rewrite Nat.sub_diag.
Qed.

Lemma insert_middle_at pre x y post i :
  i = length pre -> <[i := y]> (pre ++ x :: post) = pre ++ y :: post.
Proof. intros ->. apply insert_middle. Qed.

Lemma snoc_app pre x post : pre ++ x :: post = (pre ++ [x]) ++ post.
Proof. by rewrite <- app_assoc. Qed.

Lemma length_snoc pre x : length (pre ++ [x]) = S (length pre).
Proof. rewrite length_app. csimpl. lia. Qed.

Lemma fmap_reverse_cons {B : Type} (f : A -> B) x l (k : list B) :
  (f <$> reverse (x :: l)) ++ k = (f <$> reverse l) ++ f x :: k.
Proof. rewrite reverse_cons, fmap_app, <- app_assoc. done. Qed.

End Slots.

Section Blocks.
Context {T : Type} `{Element T}.
Implicit Types (vs ws xs : list T) (pre post spre spost : Block T) (lg : Log T).

Lemma destroy_at_live pre v post i lg :
  i = length pre ->
  destroy_at (pre ++ Some v :: post) i lg = Some (pre ++ None :: post, EvDtor v :: lg).
Proof.
  intros ->. unfold destroy_at.
  rewrite list_lookup_middle by done. by rewrite insert_middle.
Qed.

Lemma destroy_n_live vs : forall pre post i lg,
  i = length pre ->
  destroy_n (pre ++ (Some <$> vs) ++ post) i (length vs) lg
  = Some (pre ++ replicate (length vs) None ++ post, (EvDtor <$> reverse vs) ++ lg).
Proof.
  induction vs as [|v vs IH]; intros pre post i lg Hi; csimpl.
  - done.
  - rewrite destroy_at_live by done. csimpl.
    rewrite snoc_app, IH by (rewrite length_snoc; lia).
    rewrite <- snoc_app, fmap_reverse_cons. done.
Qed.

Lemma move_construct_live spre v spost pre post s d lg :
  s = length spre -> d = length pre ->
  move_construct (spre ++ Some v :: spost) s (pre ++ None :: post) d lg
  = Some (spre ++ Some (moved_from v) :: spost, pre ++ Some v :: post, EvMoveCtor v :: lg).
Proof.
  intros -> ->. unfold move_construct.
  rewrite !list_lookup_middle by done. by rewrite !insert_middle.
Qed.

Lemma uninitialized_move_n_live vs : forall spre spost pre post s d lg,
  s = length spre -> d = length pre ->
  uninitialized_move_n (spre ++ (Some <$> vs) ++ spost) s (length vs)
    (pre ++ replicate (length vs) None ++ post) d lg
  = Some (spre ++ (Some <$> (moved_from <$> vs)) ++ spost,
          pre ++ (Some <$> vs) ++ post,
          (EvMoveCtor <$> reverse vs) ++ lg).
Proof.
  induction vs as [|v vs IH]; intros spre spost pre post s d lg Hs Hd; csimpl.
  - done.
  - rewrite move_construct_live by done. csimpl.
    rewrite (snoc_app spre), (snoc_app pre), IH by (rewrite length_snoc; lia).
    rewrite <- !snoc_app, fmap_reverse_cons. done.
Qed.

End Blocks.

Section Loops.
Context {T : Type} `{Element T}.
Implicit Types (vs ws xs : list T) (pre post spre spost : Block T) (lg : Log T).

Lemma construct_at_raw pre post i a lg :
  i = length pre ->
  construct_at (pre ++ None :: post) i a lg =
    match a with
    | ByCopy v =>
        if copy_throws lg v then Throws (pre ++ None :: post, EvCopyThrow v :: lg)
        else Returns (pre ++ Some v :: post, EvCopyCtor v :: lg) tt
    | ByMove v => Returns (pre ++ Some v :: post, EvMoveCtor v :: lg) tt
    end.
Proof.
  intros ->. unfold construct_at.
  rewrite list_lookup_middle by done. destruct a; rewrite ?insert_middle; done.
Qed.

Lemma construct_at_raw_arg pre post i a lg :
  i = length pre ->
  construct_at (pre ++ None :: post) i a lg =
    if arg_throws lg a then Throws (pre ++ None :: post, EvCopyThrow (arg_value a) :: lg)
    else Returns (pre ++ Some (arg_value a) :: post, arg_event a :: lg) tt.
Proof. intros Hi. rewrite construct_at_raw by done. by destruct a. Qed.

Lemma uninitialized_copy_loop_live vs : forall spre spost pre done post s d cur lg,
  s = length spre -> d = length pre -> cur = d + length done ->
  uninitialized_copy_loop (spre ++ (Some <$> vs) ++ spost) s (length vs)
    (pre ++ (Some <$> done) ++ replicate (length vs) None ++ post) d cur lg
  = Returns (pre ++ (Some <$> (done ++ vs)) ++ post, (EvCopyCtor <$> reverse vs) ++ lg) tt
  \/ exists k v,
       vs !! k = Some v /\
       copy_throws ((EvCopyCtor <$> reverse (take k vs)) ++ lg) v = true /\
       uninitialized_copy_loop (spre ++ (Some <$> vs) ++ spost) s (length vs)
         (pre ++ (Some <$> done) ++ replicate (length vs) None ++ post) d cur lg
       = Throws (pre ++ replicate (length done + length vs) None ++ post,
                 (EvDtor <$> reverse (done ++ take k vs))
                 ++ EvCopyThrow v :: (EvCopyCtor <$> reverse (take k vs)) ++ lg).
Proof.
  induction vs as [|v vs IH]; intros spre spost pre done post s d cur lg Hs Hd Hcur.
  - left. csimpl. by rewrite app_nil_r.
  - csimpl.
    rewrite list_lookup_middle by done.
    rewrite (app_assoc pre), construct_at_raw
      by (rewrite length_app, length_fmap; lia).
    destruct (copy_throws lg v) eqn:Hthrow.
    + right. exists 0, v. csimpl. split; [done|]. split; [done|].
      rewrite <- app_assoc, app_nil_r.
      replace (cur - d) with (length done) by lia.
      rewrite destroy_n_live by done. csimpl.
      do 3 f_equal. rewrite replicate_add, <- app_assoc. done.
    + assert (Hs' : S s = length (spre ++ [Some v])) by (rewrite length_snoc; lia).
      assert (Hcur' : S cur = d + length (done ++ [v])) by (rewrite length_snoc; lia).
      specialize (IH (spre ++ [Some v]) spost pre (done ++ [v]) post (S s) d (S cur)
                     (EvCopyCtor v :: lg) Hs' Hd Hcur').
      rewrite <- !snoc_app in IH.
      rewrite fmap_app, <- !app_assoc in IH. csimpl in IH.
      rewrite <- !app_assoc.
      destruct IH as [IH | (k & w & Hk & Hw & IH)].
      * left. rewrite IH, fmap_reverse_cons. done.
      * right. exists (S k), w. csimpl. split; [done|].
        rewrite !fmap_reverse_cons.
        split; [done|]. rewrite IH, length_snoc, <- (app_assoc done).
        replace (S (length done) + length vs) with (length done + S (length vs)) by lia.
        done.
Qed.

Lemma move_assign_within_live (blk : Block T) s d v w lg :
  blk !! s = Some (Some v) -> blk !! d = Some (Some w) -> s <> d ->
  move_assign_within blk s d lg
  = Some (<[d := Some v]> (<[s := Some (moved_from v)]> blk), EvMoveAssign v :: lg).
Proof.
  intros Hs Hd Hne. unfold move_assign_within. rewrite Hs, Hd.
  by destruct (decide (s = d)).
Qed.

Lemma move_backward_loop_live vs : forall pre w post n last d_last lg,
  n = length vs -> last = length pre + length vs -> d_last = S last ->
  move_backward_loop (pre ++ (Some <$> vs) ++ Some w :: post) n last d_last lg
  = Some (pre ++ (Some <$> shifted_right vs w) ++ post, (EvMoveAssign <$> vs) ++ lg).
Proof.
  induction vs as [|v vs IH] using rev_ind; intros pre w post n last d_last lg -> -> ->.
  - done.
  - rewrite length_snoc. csimpl. rewrite Nat.sub_0_r.
    replace (length pre + S (length vs) - 1) with (length pre + length vs) by lia.
    rewrite fmap_app, <- app_assoc. csimpl.
    rewrite (app_assoc pre).
    erewrite move_assign_within_live; cycle 1.
    { apply list_lookup_middle. rewrite length_app, length_fmap. done. }
    { rewrite snoc_app. apply list_lookup_middle.
      rewrite length_snoc, length_app, length_fmap. done. }
    { lia. }
    csimpl.
    rewrite insert_middle_at by (rewrite length_app, length_fmap; done).
    rewrite (snoc_app _ (Some (moved_from v))).
    rewrite insert_middle_at
      by (rewrite length_snoc, length_app, length_fmap; done).
    rewrite <- snoc_app, <- app_assoc.
    rewrite (IH pre (moved_from v) (Some v :: post)) by done.
    f_equal. f_equal.
    + f_equal. destruct vs as [|v0 vs]; csimpl; [done|].
      rewrite fmap_app, <- app_assoc. done.
    + rewrite fmap_app, <- app_assoc. done.
Qed.

Lemma move_loop_live vs : forall pre w post n first d_first lg,
  n = length vs -> d_first = length pre -> first = S d_first ->
  move_loop (pre ++ Some w :: (Some <$> vs) ++ post) n first d_first lg
  = Some (pre ++ (Some <$> shifted_left w vs) ++ post, (EvMoveAssign <$> reverse vs) ++ lg).
Proof.
  induction vs as [|v vs IH]; intros pre w post n first d_first lg -> -> ->.
  - done.
  - csimpl.
    erewrite move_assign_within_live; cycle 1.
    { rewrite (snoc_app pre). apply list_lookup_middle. by rewrite length_snoc. }
    { by apply list_lookup_middle. }
    { lia. }
    csimpl.
    rewrite (snoc_app pre (Some w)), insert_middle_at by (by rewrite length_snoc).
    rewrite <- snoc_app, insert_middle.
    rewrite (snoc_app pre (Some v)).
    rewrite (IH (pre ++ [Some v]) (moved_from v) post) by (rewrite ?length_snoc; done).
    rewrite <- app_assoc, fmap_reverse_cons. csimpl.
    do 3 f_equal. unfold shifted_left.
    destruct vs as [|v1 vs]; csimpl; [done|].
    destruct (last (v1 :: vs)) as [vl|] eqn:Hl; [done|].
    by apply last_None in Hl.
Qed.

Lemma copy_n_live vs : forall ws spre spost pre post s d lg,
  length ws = length vs -> s = length spre -> d = length pre ->
  copy_n (spre ++ (Some <$> vs) ++ spost) s (length vs)
    (pre ++ (Some <$> ws) ++ post) d lg
  = Returns (pre ++ (Some <$> vs) ++ post, (EvCopyAssign <$> reverse vs) ++ lg) tt
  \/ exists k v w lg',
       vs !! k = Some v /\ ws !! k = Some w /\ assign_throws lg' w v = true /\
       copy_n (spre ++ (Some <$> vs) ++ spost) s (length vs)
         (pre ++ (Some <$> ws) ++ post) d lg
       = Throws (pre ++ (Some <$> (take k vs ++ drop k ws)) ++ post,
                 EvAssignThrow v :: lg').
Proof.
  induction vs as [|v vs IH]; intros ws spre spost pre post s d lg Hlen Hs Hd.
  - left. destruct ws; [done|discriminate].
  - destruct ws as [|w ws]; [discriminate|]. csimpl in Hlen.
    csimpl. unfold copy_assign_at.
    rewrite !list_lookup_middle by done.
    destruct (assign_throws lg w v) eqn:Hthrow.
    + right. exists 0, v, w, lg. csimpl. done.
    + rewrite insert_middle_at by done.
      assert (Hs' : S s = length (spre ++ [Some v])) by (rewrite length_snoc; lia).
      assert (Hd' : S d = length (pre ++ [Some v])) by (rewrite length_snoc; lia).
      assert (Hlen' : length ws = length vs) by lia.
      specialize (IH ws (spre ++ [Some v]) spost (pre ++ [Some v]) post (S s) (S d)
                     (EvCopyAssign v :: lg) Hlen' Hs' Hd').
      rewrite <- !snoc_app in IH.
      destruct IH as [IH | (k & v' & w' & lg' & Hk & Hw & Hthrow' & IH)].
      * left. rewrite IH, fmap_reverse_cons. done.
      * right. exists (S k), v', w', lg'. csimpl. rewrite IH.
        rewrite <- app_assoc. done.
Qed.

(** The same facts for a block given by an equation. *)

Lemma destroy_n_at (blk : Block T) i n pre vs post lg :
  blk = pre ++ (Some <$> vs) ++ post -> i = length pre -> n = length vs ->
  destroy_n blk i n lg
  = Some (pre ++ replicate n None ++ post, (EvDtor <$> reverse vs) ++ lg).
Proof. intros -> -> ->. by apply destroy_n_live. Qed.

Lemma uninitialized_move_n_at (src dst : Block T) s n d spre vs spost pre post lg :
  src = spre ++ (Some <$> vs) ++ spost -> dst = pre ++ replicate n None ++ post ->
  s = length spre -> d = length pre -> n = length vs ->
  uninitialized_move_n src s n dst d lg
  = Some (spre ++ (Some <$> (moved_from <$> vs)) ++ spost,
          pre ++ (Some <$> vs) ++ post,
          (EvMoveCtor <$> reverse vs) ++ lg).
Proof. intros -> -> -> -> ->. by apply uninitialized_move_n_live. Qed.

Lemma uninitialized_copy_n_at (src dst : Block T) s n d spre vs spost pre post lg :
  src = spre ++ (Some <$> vs) ++ spost -> dst = pre ++ replicate n None ++ post ->
  s = length spre -> d = length pre -> n = length vs ->
  uninitialized_copy_n src s n dst d lg
  = Returns (pre ++ (Some <$> vs) ++ post, (EvCopyCtor <$> reverse vs) ++ lg) tt
  \/ exists lg0 v lg',
       copy_throws lg0 v = true /\
       uninitialized_copy_n src s n dst d lg = Throws (dst, lg').
Proof.
  intros -> -> Hs Hd ->. unfold uninitialized_copy_n.
  destruct (uninitialized_copy_loop_live vs spost (done := []) post lg Hs Hd
              (eq_sym (Nat.add_0_r d)))
    as [Hr | (k & v & _ & Hthrow & Ht)]; [by left|].
  right. csimpl in Ht. rewrite Ht. by eexists _, v, _.
Qed.

Lemma copy_n_at (src dst : Block T) s n d spre vs spost pre ws post lg :
  src = spre ++ (Some <$> vs) ++ spost -> dst = pre ++ (Some <$> ws) ++ post ->
  s = length spre -> d = length pre -> n = length vs -> length ws = length vs ->
  copy_n src s n dst d lg
  = Returns (pre ++ (Some <$> vs) ++ post, (EvCopyAssign <$> reverse vs) ++ lg) tt
  \/ exists lg0 v w k lg',
       assign_throws lg0 w v = true /\
       copy_n src s n dst d lg
       = Throws (pre ++ (Some <$> (take k vs ++ drop k ws)) ++ post, lg').
Proof.
  intros -> -> Hs Hd -> Hlen.
  destruct (copy_n_live spost post lg Hlen Hs Hd)
    as [Hr | (k & v & w & lg' & _ & _ & Hthrow & Ht)]; [by left|].
  right. rewrite Ht. by eexists lg', v, w, k, _.
Qed.

End Loops.

Section ValidLemmas.
Context {T : Type}.
Implicit Types (xs : list T) (blk : Block T) (v : Vector T).

Lemma live_slots blk : forallb is_live blk = true -> Some <$> omap id blk = blk.
Proof.
  induction blk as [|[x|] blk IH]; csimpl; intros Hl; try done.
  by rewrite IH.
Qed.

Lemma raw_slots blk :
  forallb (fun slot => negb (is_live slot)) blk = true -> blk = replicate (length blk) None.
Proof.
  induction blk as [|[x|] blk IH]; csimpl; intros Hr; try done.
  by rewrite <- IH.
Qed.

Lemma omap_live xs : omap id (Some <$> xs) = xs.
Proof. induction xs as [|x xs IH]; csimpl; [done|]. by rewrite IH. Qed.

Lemma forallb_live xs : forallb is_live (Some <$> xs) = true.
Proof. by induction xs. Qed.

Lemma forallb_raw n : forallb (fun slot : option T => negb (is_live slot)) (replicate n None) = true.
Proof. by induction n. Qed.

Lemma elements_vector_of xs cap : elements (vector_of xs cap) = xs.
Proof.
  unfold elements, vector_of. simpl.
  rewrite take_app_length' by (by rewrite length_fmap). apply omap_live.
Qed.

Lemma valid_vector_of xs cap : length xs <= cap -> valid (vector_of xs cap) = true.
Proof.
  intros Hle. unfold valid, vector_of. simpl.
  rewrite take_app_length', drop_app_length' by (by rewrite length_fmap).
  rewrite forallb_live, forallb_raw, !andb_true_r.
  rewrite length_app, length_fmap, length_replicate.
  apply andb_true_iff. split; [apply Nat.eqb_eq | apply Nat.leb_le]; lia.
Qed.

(** A valid vector is determined by its elements and its capacity. *)
Lemma valid_vector v :
  valid v = true ->
  v = vector_of (elements v) (Capacity v)
  /\ length (elements v) = Size v /\ Size v <= Capacity v.
Proof.
  destruct v as [[buf cap] n]. unfold valid, elements, vector_of, Size, Capacity. simpl.
  rewrite !andb_true_iff, Nat.eqb_eq, Nat.leb_le.
  intros [[[Hlen Hle] Hl] Hr].
  assert (Hn : length (omap id (take n buf)) = n).
  { rewrite <- (length_fmap Some), live_slots by done. rewrite length_take. lia. }
  split; [|done].
  rewrite Hn, live_slots by done.
  apply raw_slots in Hr. rewrite length_drop, Hlen in Hr.
  by rewrite <- Hr, take_drop.
Qed.

Lemma valid_is_vector_of v :
  valid v = true -> exists xs cap, v = vector_of xs cap /\ length xs <= cap.
Proof.
  intros Hv. destruct (valid_vector Hv) as (Heq & Hlen & Hle).
  exists (elements v), (Capacity v). split; [done | lia].
Qed.

(** [valid], slot by slot. *)
Lemma valid_slots v :
  valid v = true <->
  length (buffer_ (data_ v)) = Capacity v
  /\ Size v <= Capacity v
  /\ (forall i, i < Size v -> exists x, buffer_ (data_ v) !! i = Some (Some x))
  /\ (forall i, Size v <= i -> i < Capacity v -> buffer_ (data_ v) !! i = Some None).
Proof.
  split.
  - intros Hv. destruct (valid_vector Hv) as (Heq & Hlen & Hle).
    rewrite Heq. unfold vector_of, Size, Capacity. simpl.
    set (xs := elements v) in *. set (cap := capacity_ (data_ v)) in *.
    unfold Size, Capacity in *. fold cap in Hle. rewrite <- Hlen in Hle.
    split; [rewrite length_app, length_fmap, length_replicate; lia|].
    split; [done|]. split.
    + intros i Hi. destruct (lookup_lt_is_Some_2 xs i Hi) as [x Hx].
      exists x. rewrite lookup_app_l by (by rewrite length_fmap).
      by rewrite list_lookup_fmap, Hx.
    + intros i Hi Hc. rewrite lookup_app_r by (by rewrite length_fmap).
      rewrite length_fmap. apply lookup_replicate_2. lia.
  - destruct v as [[buf cap] n]. unfold valid, Size, Capacity. simpl.
    intros (Hlen & Hle & Hl & Hr).
    rewrite !andb_true_iff, Nat.eqb_eq, Nat.leb_le.
    split; [split; [done|]|].
    + apply forallb_forall. intros slot Hin.
      apply list_elem_of_In, list_elem_of_lookup in Hin as [i Hi].
      apply lookup_take_Some in Hi as [Hi Hlt].
      destruct (Hl i Hlt) as [x Hx]. rewrite Hx in Hi. by inversion Hi.
    + apply forallb_forall. intros slot Hin.
      apply list_elem_of_In, list_elem_of_lookup in Hin as [i Hi].
      rewrite lookup_drop in Hi.
      assert (n + i < cap) by (apply lookup_lt_Some in Hi; lia).
      rewrite Hr in Hi by lia. by inversion Hi.
Qed.

End ValidLemmas.

Section Operations.
Context {T : Type} `{Element T} `{Allocator T}.
Implicit Types (xs init vs : list T) (this : Vector T) (lg : Log T).

Lemma vector_of_eq (blk : Block T) cap n xs :
  blk = (Some <$> xs) ++ replicate (cap - length xs) None -> n = length xs ->
  {| data_ := {| buffer_ := blk; capacity_ := cap |}; size_ := n |} = vector_of xs cap.
Proof. by intros -> ->. Qed.

Lemma raw_cons n : 0 < n -> replicate n (@None T) = None :: replicate (n - 1) None.
Proof. destruct n; [lia|]. intros _. simpl. by rewrite Nat.sub_0_r. Qed.

Lemma slots_snoc init (x : T) (post : Block T) :
  (Some <$> (init ++ [x])) ++ post = (Some <$> init) ++ Some x :: post.
Proof. by rewrite fmap_app, <- app_assoc. Qed.

Lemma slots_middle xs pos (x : T) (post : Block T) :
  xs !! pos = Some x ->
  (Some <$> xs) ++ post
  = (Some <$> take pos xs) ++ Some x :: (Some <$> drop (S pos) xs) ++ post.
Proof.
  intros Hx. rewrite <- (take_drop_middle xs pos x Hx) at 1.
  by rewrite fmap_app, <- app_assoc.
Qed.

Lemma PopBack_empty cap lg :
  PopBack (vector_of [] cap) lg = Returns (vector_of [] cap, lg) tt.
Proof. done. Qed.

Lemma PopBack_nonempty init x cap lg :
  length init < cap ->
  PopBack (vector_of (init ++ [x]) cap) lg = Returns (vector_of init cap, EvDtor x :: lg) tt.
Proof.
  intros Hlt. unfold PopBack, vector_of. cbn [data_ size_ buffer_ capacity_].
  rewrite length_snoc. cbn [Nat.ltb Nat.leb].
  replace (S (length init) - 1) with (length init) by lia.
  rewrite slots_snoc, destroy_at_live by (by rewrite length_fmap).
  cbn [noexcept with_slots capacity_]. do 2 f_equal.
  apply vector_of_eq; [|done].
  rewrite (raw_cons (n := cap - length init)) by lia.
  do 3 f_equal. lia.
Qed.

Lemma shifted_left_snoc (w : T) vs :
  shifted_left w vs = vs ++ [from_option moved_from w (last vs)].
Proof.
  unfold shifted_left. destruct (last vs) as [v|] eqn:Hl; [done|].
  by apply last_None in Hl as ->.
Qed.

Lemma shifted_right_cons vs (w : T) : exists d, shifted_right vs w = d :: vs.
Proof. destruct vs; by eexists. Qed.

Lemma Erase_valid xs cap pos x lg :
  length xs <= cap -> xs !! pos = Some x ->
  Erase pos (vector_of xs cap) lg
  = Returns (vector_of (take pos xs ++ drop (S pos) xs) cap,
             EvDtor (from_option moved_from x (last (drop (S pos) xs)))
             :: (EvMoveAssign <$> reverse (drop (S pos) xs)) ++ lg) pos.
Proof.
  intros Hle Hx.
  assert (Hpos : pos < length xs) by (by eapply lookup_lt_Some).
  unfold Erase, vector_of, move_range. cbn [data_ size_ buffer_ capacity_].
  replace (pos <? length xs) with true by (symmetry; apply Nat.ltb_lt; lia).
  cbn [negb].
  rewrite (slots_middle _ Hx).
  rewrite move_loop_live
    by (rewrite ?length_drop, ?length_fmap, ?length_take; lia).
  cbn [noexcept]. rewrite shifted_left_snoc.
  rewrite slots_snoc, (app_assoc (Some <$> take pos xs)).
  rewrite destroy_at_live
    by (rewrite length_app, !length_fmap, length_take, length_drop; lia).
  cbn [noexcept with_slots capacity_]. do 2 f_equal.
  apply vector_of_eq.
  - rewrite length_app, length_take, length_drop.
    rewrite fmap_app, <- !app_assoc. do 2 f_equal.
    replace (cap - (pos `min` length xs + (length xs - S pos)))
      with (S (cap - length xs)) by lia.
    done.
  - rewrite length_app, length_take, length_drop. lia.
Qed.

Lemma last_moved_from_snoc init (l : T) :
  last_moved_from (init ++ [l]) = init ++ [moved_from l].
Proof.
  unfold last_moved_from. rewrite length_snoc.
  replace (S (length init) - 1) with (length init + 0) by lia.
  by rewrite alter_app_r.
Qed.

Lemma length_last_moved_from xs : length (last_moved_from xs) = length xs.
Proof. apply length_alter. Qed.

Lemma move_construct_within_live (pre post : Block T) v s d lg :
  s = length pre -> d = S s ->
  move_construct_within (pre ++ Some v :: None :: post) s d lg
  = Some (pre ++ Some (moved_from v) :: Some v :: post, EvMoveCtor v :: lg).
Proof.
  intros -> ->. unfold move_construct_within.
  rewrite list_lookup_middle by done.
  rewrite (snoc_app pre (Some v)), list_lookup_middle by (by rewrite length_snoc).
  rewrite <- snoc_app, insert_middle.
  rewrite (snoc_app pre (Some (moved_from v))), insert_middle_at by (by rewrite length_snoc).
  by rewrite <- snoc_app.
Qed.

Lemma Emplace_in_place xs cap pos a lg :
  length xs < cap -> pos <= length xs ->
  exists lg1,
    Emplace pos a (vector_of xs cap) lg =
    let ys := take pos (last_moved_from xs) in
    let zs := drop pos (last_moved_from xs) in
    match a with
    | ByCopy v =>
        if copy_throws lg1 v then
          Throws ({| data_ :=
                       {| buffer_ := (Some <$> ys) ++ None :: (Some <$> zs)
                                       ++ replicate (cap - S (length xs)) None;
                          capacity_ := cap |};
                     size_ := length xs |},
                  EvCopyThrow v :: lg1)
        else Returns (vector_of (ys ++ v :: zs) cap, EvCopyCtor v :: lg1) pos
    | ByMove v => Returns (vector_of (ys ++ v :: zs) cap, EvMoveCtor v :: lg1) pos
    end.
Proof.
  intros Hlt Hpos.
  assert (Hfinal : forall (ys zs : list T) (v : T), length ys + length zs = length xs ->
    {| data_ := {| buffer_ := (Some <$> ys) ++ Some v :: (Some <$> zs)
                                ++ replicate (cap - S (length xs)) None;
                   capacity_ := cap |};
       size_ := S (length xs) |} = vector_of (ys ++ v :: zs) cap).
  { intros ys zs v Hl. apply vector_of_eq.
    - rewrite fmap_app, <- app_assoc, length_app. csimpl.
      do 4 f_equal. lia.
    - rewrite length_app. csimpl. lia. }
  unfold Emplace, vector_of, Capacity. cbn [data_ size_ buffer_ capacity_].
  replace (pos <=? length xs) with true by (symmetry; apply Nat.leb_le; lia).
  replace (length xs =? cap) with false by (symmetry; apply Nat.eqb_neq; lia).
  cbn [negb]. unfold RawMemory_plus. cbn [capacity_].
  replace (pos <=? cap) with true by (symmetry; apply Nat.leb_le; lia).
  replace (length xs <=? cap) with true by (symmetry; apply Nat.leb_le; lia).
  cbn [noexcept with_slots capacity_].
  destruct xs as [|l init _] using rev_ind.
  - exists lg. assert (pos = 0) as -> by (simpl in Hpos; lia).
    unfold construct_at, vector_of. csimpl.
    rewrite Nat.sub_0_r, (raw_cons (n := cap)) by lia. csimpl.
    by destruct a as [v|v]; [destruct (copy_throws lg v)|].
  - rewrite length_snoc in *.
    cbn [Nat.eqb negb].
    replace (S (length init) - 1) with (length init) by lia.
    rewrite slots_snoc, (raw_cons (n := cap - _)) by lia.
    rewrite move_construct_within_live by (by rewrite ?length_fmap).
    cbn [noexcept]. unfold move_backward.
    rewrite last_moved_from_snoc.
    set (xs' := init ++ [moved_from l]).
    assert (Hlen' : length xs' = S (length init)) by apply length_snoc.
    set (post := replicate (cap - S (length init) - 1) None).
    assert (Hblk : (Some <$> init) ++ Some (moved_from l) :: Some l :: post
                   = (Some <$> take pos xs') ++ (Some <$> drop pos xs') ++ Some l :: post).
    { rewrite app_assoc, <- fmap_app, take_drop. unfold xs'. by rewrite slots_snoc. }
    rewrite Hblk. clear Hblk.
    rewrite move_backward_loop_live
      by (rewrite ?length_fmap, ?length_take, ?length_drop; lia).
    cbn [noexcept].
    destruct (shifted_right_cons (drop pos xs') l) as [d ->].
    csimpl.
    rewrite destroy_at_live by (rewrite length_fmap, length_take; lia).
    cbn [noexcept].
    rewrite construct_at_raw by (rewrite length_fmap, length_take; lia).
    exists (EvDtor d :: (EvMoveAssign <$> drop pos xs') ++ EvMoveCtor l :: lg).
    unfold post.
    replace (cap - S (length init) - 1) with (cap - S (S (length init))) by lia.
    destruct a as [v|v]; [destruct (copy_throws _ v)|];
      unfold with_slots; cbn [capacity_ buffer_];
      rewrite ?Hfinal by (rewrite length_take, length_drop; lia); reflexivity.
Qed.

End Operations.

Section Growth.
Context {T : Type} `{Element T} `{Allocator T}.
Implicit Types (xs init vs : list T) (this : Vector T) (lg : Log T).

Lemma doubled_gt n : n < doubled n.
Proof. unfold doubled. destruct (Nat.eqb_spec n 0); lia. Qed.

Lemma raw_split pos m :
  pos < m -> replicate m (@None T) = replicate pos None ++ None :: replicate (m - S pos) None.
Proof.
  intros Hlt. replace m with (pos + S (m - S pos)) at 1 by lia.
  by rewrite replicate_add.
Qed.

Lemma arg_throws_some lg a : arg_throws lg a = true -> some_throw T.
Proof. destruct a as [v|v]; [|done]. intros Hc. left. by exists lg, v. Qed.

Lemma Emplace_realloc xs pos a lg :
  pos <= length xs ->
  (exists lg',
     Emplace pos a (vector_of xs (length xs)) lg
     = Returns (vector_of (take pos xs ++ arg_value a :: drop pos xs) (doubled (length xs)),
                lg') pos)
  \/ (some_throw T /\
      exists lg',
        Emplace pos a (vector_of xs (length xs)) lg = Throws (vector_of xs (length xs), lg')).
Proof.
  intros Hpos.
  pose proof (doubled_gt (length xs)) as Hm.
  set (this := vector_of xs (length xs)).
  assert (Hsize : size_ this = length xs) by done.
  assert (Hcap : capacity_ (data_ this) = length xs) by done.
  assert (Hbuf : buffer_ (data_ this) = Some <$> xs).
  { unfold this, vector_of. cbn [data_ buffer_]. rewrite Nat.sub_diag. apply app_nil_r. }
  clearbody this.
  unfold Emplace, Capacity, with_slots. rewrite !Hsize, !Hcap, !Hbuf.
  replace (pos <=? length xs) with true by (symmetry; apply Nat.leb_le; lia).
  rewrite Nat.eqb_refl. cbn [negb].
  fold (doubled (length xs)). set (m := doubled (length xs)) in *.
  set (n := length xs) in *.
  unfold RawMemory_ctor, Allocate.
  replace (m =? 0) with false by (symmetry; apply Nat.eqb_neq; lia).
  destruct (alloc_fails lg m) eqn:Halloc.
  { right. split; [right; by exists lg, m|]. by eexists. }
  cbn [buffer_].
  rewrite (raw_split (pos := pos) (m := m)) by lia.
  rewrite construct_at_raw_arg by (by rewrite length_replicate).
  destruct (arg_throws _ a) eqn:Hthrow.
  { right. split; [by eapply arg_throws_some|]. by eexists. }
  set (w := arg_value a). set (lg1 := arg_event a :: EvAllocate m :: lg).
  cbn [capacity_].
  set (ys := take pos xs ++ w :: drop pos xs).
  assert (Hys : length ys = S n).
  { unfold ys. rewrite length_app, length_take. cbn [length]. rewrite length_drop. lia. }
  assert (Hfinish : forall vs (new2 : Block T) lg3,
    length vs = n -> new2 = (Some <$> ys) ++ replicate (m - S n) None ->
    noexcept (destroy_n (Some <$> vs) 0 n lg3)
      (fun '(old', lg0) =>
         let '(data, new_data') :=
           RawMemory_Swap {| buffer_ := old'; capacity_ := n |}
                          {| buffer_ := new2; capacity_ := m |} in
         noexcept (RawMemory_plus data pos)
           (fun p => Returns ({| data_ := data; size_ := S n |},
                              RawMemory_dtor new_data' lg0) p))
    = Returns (vector_of ys m,
               EvDeallocate (replicate n None) :: (EvDtor <$> reverse vs) ++ lg3) pos).
  { intros vs new2 lg3 Hvs ->.
    rewrite (destroy_n_at (pre := []) (vs := vs) (post := []) (blk := Some <$> vs))
      by (rewrite ?app_nil_r; done).
    cbn [noexcept RawMemory_Swap buffer_ capacity_ app]. unfold RawMemory_plus.
    cbn [capacity_].
    replace (pos <=? m) with true by (symmetry; apply Nat.leb_le; lia).
    cbn [noexcept RawMemory_dtor buffer_]. unfold Deallocate. rewrite app_nil_r.
    do 2 f_equal. apply vector_of_eq; [by rewrite Hys | by rewrite Hys]. }
  assert (Hsrc : Some <$> xs = [] ++ (Some <$> take pos xs) ++ (Some <$> drop pos xs)).
  { by rewrite <- fmap_app, take_drop. }
  assert (Hltake : length (take pos xs) = pos) by (rewrite length_take; lia).
  assert (Hldrop : length (drop pos xs) = n - pos) by (by rewrite length_drop).
  assert (Hraw : replicate (m - S pos) (@None T)
                 = replicate (n - pos) None ++ replicate (m - S n) None).
  { rewrite <- replicate_add. f_equal. lia. }
  assert (Hnew2 : ((Some <$> take pos xs) ++ [Some w]) ++ (Some <$> drop pos xs)
                    ++ replicate (m - S n) None
                  = (Some <$> ys) ++ replicate (m - S n) None).
  { unfold ys. rewrite fmap_app, <- !app_assoc. done. }
  destruct (is_nothrow_move_constructible || negb is_copy_constructible).
  - left.
    rewrite (uninitialized_move_n_at (spre := []) (vs := take pos xs)
               (spost := Some <$> drop pos xs) (pre := [])
               (post := Some w :: replicate (m - S pos) None)) by done.
    cbn [noexcept].
    rewrite (uninitialized_move_n_at (spre := Some <$> (moved_from <$> take pos xs))
               (vs := drop pos xs) (spost := [])
               (pre := (Some <$> take pos xs) ++ [Some w])
               (post := replicate (m - S n) None)); cycle 1.
    { by rewrite app_nil_r. }
    { rewrite Hraw, <- app_assoc. done. }
    { by rewrite !length_fmap. }
    { rewrite length_snoc, length_fmap. lia. }
    { done. }
    cbn [noexcept].
    rewrite app_nil_r, <- fmap_app, <- fmap_app, take_drop.
    rewrite Hnew2.
    rewrite Hfinish by (by rewrite ?length_fmap). by eexists.
  - destruct (uninitialized_copy_n_at (src := Some <$> xs) (s := 0) (n := pos) (d := 0)
                (dst := replicate pos None ++ Some w :: replicate (m - S pos) None)
                (spre := []) (vs := take pos xs)
                (spost := Some <$> drop pos xs) (pre := [])
                (post := Some w :: replicate (m - S pos) None) lg1
                Hsrc eq_refl eq_refl eq_refl (eq_sym Hltake))
      as [Hr | (lg0 & v & lg' & Hv & Ht)]; rewrite ?Hr, ?Ht.
    2:{ right. split; [left; by exists lg0, v|].
        cbn [destroy_n]. rewrite destroy_at_live by (by rewrite length_replicate).
        cbn [noexcept option_bind mbind]. by eexists. }
    cbn [app].
    destruct (uninitialized_copy_n_at (src := Some <$> xs) (s := pos) (n := n - pos)
                (d := pos + 1)
                (dst := (Some <$> take pos xs) ++ Some w :: replicate (m - S pos) None)
                (spre := Some <$> take pos xs) (vs := drop pos xs)
                (spost := []) (pre := (Some <$> take pos xs) ++ [Some w])
                (post := replicate (m - S n) None)
                ((EvCopyCtor <$> reverse (take pos xs)) ++ lg1))
      as [Hr2 | (lg0 & v & lg' & Hv & Ht)]; rewrite ?Hr2, ?Ht.
    { rewrite app_nil_r, <- fmap_app, take_drop. done. }
    { rewrite Hraw, <- app_assoc. done. }
    { by rewrite length_fmap. }
    { rewrite length_snoc, length_fmap. lia. }
    { done. }
    + left. rewrite Hnew2, Hfinish by done. by eexists.
    + right. split; [left; by exists lg0, v|].
      cbn [destroy_n]. rewrite destroy_at_live by (by rewrite length_fmap).
      cbn [noexcept option_bind mbind]. by eexists.
Qed.

Lemma PushBack_in_place xs cap a lg :
  length xs < cap ->
  PushBack a (vector_of xs cap) lg =
    if arg_throws lg a then Throws (vector_of xs cap, EvCopyThrow (arg_value a) :: lg)
    else Returns (vector_of (xs ++ [arg_value a]) cap, arg_event a :: lg) tt.
Proof.
  intros Hlt. unfold PushBack, EmplaceBack, Capacity, with_slots.
  set (this := vector_of xs cap).
  assert (Hsize : size_ this = length xs) by done.
  assert (Hcap : capacity_ (data_ this) = cap) by done.
  assert (Hbuf : buffer_ (data_ this)
                 = (Some <$> xs) ++ None :: replicate (cap - S (length xs)) None).
  { unfold this, vector_of. cbn [data_ buffer_].
    rewrite (raw_cons (n := cap - length xs)) by lia. do 3 f_equal. lia. }
  rewrite !Hsize, !Hcap, !Hbuf.
  replace (length xs =? cap) with false by (symmetry; apply Nat.eqb_neq; lia).
  rewrite construct_at_raw_arg by (by rewrite length_fmap).
  destruct (arg_throws lg a).
  - do 2 f_equal. rewrite <- Hbuf, <- Hcap, <- Hsize. by destruct this as [[]].
  - do 2 f_equal. apply vector_of_eq.
    + rewrite length_snoc, fmap_app, <- app_assoc. done.
    + by rewrite length_snoc.
Qed.

Lemma PushBack_realloc xs a lg :
  (exists lg',
     PushBack a (vector_of xs (length xs)) lg
     = Returns (vector_of (xs ++ [arg_value a]) (doubled (length xs)), lg') tt)
  \/ (some_throw T /\
      exists lg',
        PushBack a (vector_of xs (length xs)) lg = Throws (vector_of xs (length xs), lg')).
Proof.
  unfold PushBack, EmplaceBack, Capacity.
  change (size_ (vector_of xs (length xs))) with (length xs).
  change (capacity_ (data_ (vector_of xs (length xs)))) with (length xs).
  rewrite Nat.eqb_refl.
  destruct (Emplace_realloc (xs := xs) (pos := length xs) a lg (le_n _))
    as [[lg' Hr] | [Hsome [lg' Ht]]].
  - left. rewrite Hr, firstn_all, drop_all. by eexists.
  - right. split; [done|]. rewrite Ht. by eexists.
Qed.

Lemma Reserve_enough xs cap new_capacity lg :
  new_capacity <= cap ->
  Reserve new_capacity (vector_of xs cap) lg = Returns (vector_of xs cap, lg) tt.
Proof.
  intros Hle. unfold Reserve. cbn [vector_of data_ capacity_].
  by replace (new_capacity <=? cap) with true by (symmetry; apply Nat.leb_le; lia).
Qed.

Lemma Reserve_grow xs cap new_capacity lg :
  length xs <= cap -> cap < new_capacity ->
  (exists lg',
     Reserve new_capacity (vector_of xs cap) lg = Returns (vector_of xs new_capacity, lg') tt)
  \/ (some_throw T /\
      exists lg',
        Reserve new_capacity (vector_of xs cap) lg = Throws (vector_of xs cap, lg')
        /\ (lg' = EvAllocThrow new_capacity :: lg
            \/ exists lg'', lg' = EvDeallocate (replicate new_capacity None) :: lg'')).
Proof.
  intros Hle Hlt.
  set (this := vector_of xs cap). set (n := length xs) in *.
  assert (Hsize : size_ this = n) by done.
  assert (Hcap : capacity_ (data_ this) = cap) by done.
  assert (Hbuf : buffer_ (data_ this) = [] ++ (Some <$> xs) ++ replicate (cap - n) None)
    by done.
  clearbody this.
  unfold Reserve, with_slots. rewrite !Hsize, !Hcap, !Hbuf.
  replace (new_capacity <=? cap) with false by (symmetry; apply Nat.leb_gt; lia).
  unfold RawMemory_ctor, Allocate.
  replace (new_capacity =? 0) with false by (symmetry; apply Nat.eqb_neq; lia).
  destruct (alloc_fails lg new_capacity) eqn:Halloc.
  { right. split; [right; by exists lg, new_capacity|]. eexists. split; [done|by left]. }
  cbn [buffer_ capacity_].
  assert (Hraw : replicate new_capacity (@None T)
                 = [] ++ replicate n None ++ replicate (new_capacity - n) None).
  { cbn [app]. rewrite <- replicate_add. f_equal. lia. }
  assert (Hfinish : forall vs (new : Block T) lg1,
    length vs = n -> new = (Some <$> xs) ++ replicate (new_capacity - n) None ->
    noexcept (destroy_n ([] ++ (Some <$> vs) ++ replicate (cap - n) None) 0 n lg1)
      (fun '(old', lg2) =>
         let '(data, new_data') :=
           RawMemory_Swap {| buffer_ := old'; capacity_ := cap |}
                          {| buffer_ := new; capacity_ := new_capacity |} in
         Returns ({| data_ := data; size_ := n |}, RawMemory_dtor new_data' lg2) tt)
    = Returns (vector_of xs new_capacity,
               EvDeallocate (replicate cap None) :: (EvDtor <$> reverse vs) ++ lg1) tt).
  { intros vs new lg1 Hvs ->.
    rewrite (destroy_n_at (pre := []) (vs := vs) (post := replicate (cap - n) None)) by done.
    cbn [noexcept RawMemory_Swap buffer_ capacity_ app RawMemory_dtor].
    unfold Deallocate. rewrite <- replicate_add.
    replace (n + (cap - n)) with cap by lia. done. }
  destruct (is_nothrow_move_constructible || negb is_copy_constructible).
  - left. rewrite Hraw.
    rewrite (uninitialized_move_n_at (spre := []) (vs := xs)
               (spost := replicate (cap - n) None) (pre := [])
               (post := replicate (new_capacity - n) None)) by done.
    cbn [noexcept]. rewrite Hfinish by (by rewrite ?length_fmap). by eexists.
  - destruct (uninitialized_copy_n_at (s := 0) (n := n) (d := 0)
                (src := [] ++ (Some <$> xs) ++ replicate (cap - n) None)
                (dst := replicate new_capacity None)
                (spre := []) (vs := xs) (spost := replicate (cap - n) None) (pre := [])
                (post := replicate (new_capacity - n) None)
                (EvAllocate new_capacity :: lg) eq_refl Hraw eq_refl eq_refl eq_refl)
      as [Hr | (lg0 & v & lg' & Hv & Ht)]; rewrite ?Hr, ?Ht.
    + left. rewrite Hfinish by done. by eexists.
    + right. split; [left; by exists lg0, v|]. eexists. split; [done|].
      right. by eexists.
Qed.

End Growth.

Section Assignment.
Context {T : Type} `{Element T} `{Allocator T}.
Implicit Types (xs ys : list T) (lg : Log T) (st : gmap nat (Vector T)).

Lemma ResizeToSmallerRhs_valid xs cap ys rcap lg :
  length xs <= cap -> length ys <= rcap -> length ys <= cap ->
  ResizeToSmallerRhs (vector_of xs cap) (vector_of ys rcap) lg
  = Returns (vector_of ys cap, reuse_log xs ys lg) tt
  \/ (some_copy_throw T /\
      exists s, ResizeToSmallerRhs (vector_of xs cap) (vector_of ys rcap) lg = Throws s).
Proof.
  intros Hx Hy Hyc. unfold ResizeToSmallerRhs, with_slots, reuse_log.
  cbn [vector_of data_ size_ buffer_ capacity_].
  set (n := length xs) in *. set (m := length ys) in *. set (k := n `min` m).
  assert (Hk : k <= n /\ k <= m) by lia.
  destruct (copy_n_at (s := 0) (n := k) (d := 0)
              (src := (Some <$> ys) ++ replicate (rcap - m) None)
              (dst := (Some <$> xs) ++ replicate (cap - n) None)
              (spre := []) (vs := take k ys)
              (spost := (Some <$> drop k ys) ++ replicate (rcap - m) None)
              (pre := []) (ws := take k xs)
              (post := (Some <$> drop k xs) ++ replicate (cap - n) None) lg)
    as [Hr | (lg0 & v & w & j & lg' & Hthrow & Ht)]; rewrite ?Hr, ?Ht.
  { cbn [app]. by rewrite app_assoc, <- fmap_app, take_drop. }
  { cbn [app]. by rewrite app_assoc, <- fmap_app, take_drop. }
  { done. }
  { done. }
  { rewrite length_take. fold m. lia. }
  { rewrite !length_take. fold n m. lia. }
  2:{ right. split; [right; by exists lg0, w, v|]. by eexists. }
  cbn [app].
  destruct (Nat.ltb_spec m n) as [Hlt | Hge].
  - assert (k = m) as -> by lia.
    rewrite (take_ge ys m) by done.
    rewrite (destroy_n_at (pre := Some <$> ys) (vs := drop m xs)
               (post := replicate (cap - n) None))
      by (rewrite ?length_fmap, ?length_drop; done).
    cbn [noexcept]. left. do 2 f_equal. apply vector_of_eq; [|done].
    fold m. rewrite <- replicate_add. do 2 f_equal. lia.
  - assert (k = n) as -> by lia.
    rewrite (drop_ge xs n) by done. cbn [fmap list_fmap app].
    destruct (uninitialized_copy_n_at (s := n) (n := m - n) (d := n)
                (src := (Some <$> ys) ++ replicate (rcap - m) None)
                (dst := (Some <$> take n ys) ++ replicate (cap - n) None)
                (spre := Some <$> take n ys) (vs := drop n ys)
                (spost := replicate (rcap - m) None)
                (pre := Some <$> take n ys)
                (post := replicate (cap - m) None)
                ((EvCopyAssign <$> reverse (take n ys)) ++ lg))
      as [Hr2 | (lg0 & v & lg' & Hthrow & Ht)]; rewrite ?Hr2, ?Ht.
    { by rewrite app_assoc, <- fmap_app, take_drop. }
    { rewrite <- replicate_add. do 2 f_equal. lia. }
    { rewrite length_fmap, length_take. fold m. lia. }
    { rewrite length_fmap, length_take. fold m. lia. }
    { by rewrite length_drop. }
    + left. do 2 f_equal. apply vector_of_eq; [|done].
      fold m. by rewrite app_assoc, <- fmap_app, take_drop.
    + right. split; [left; by exists lg0, v|]. by eexists.
Qed.

Lemma Swap_objects this other st (A B : Vector T) :
  st !! this = Some A -> st !! other = Some B ->
  Swap this other st = Some (<[other := A]> (<[this := B]> st)).
Proof.
  intros HA HB. unfold Swap. rewrite HA, HB. cbn.
  destruct A as [[abuf acap] an], B as [[bbuf bcap] bn]. cbn.
  destruct (decide (this = other)) as [<- | Hne].
  - assert (abuf = bbuf /\ acap = bcap /\ an = bn) as (-> & -> & ->).
    { rewrite HA in HB. by inversion HB. }
    rewrite !lookup_insert_eq. cbn. by rewrite !insert_insert_eq.
  - rewrite (lookup_insert_ne _ other this), !lookup_insert_eq by congruence. cbn.
    apply f_equal, map_eq. intros i.
    destruct (decide (i = other)) as [-> | Hi];
      [by rewrite !lookup_insert_eq|].
    rewrite !(lookup_insert_ne _ other) by congruence.
    destruct (decide (i = this)) as [-> | Hi'];
      [by rewrite !lookup_insert_eq|].
    rewrite !lookup_insert_ne by congruence. done.
Qed.

End Assignment.

(** ** What holds of every operation that returns *)

Section Invariant.
Context {T : Type} `{Element T} `{Allocator T}.
Implicit Types (xs : list T) (this : Vector T) (lg : Log T) (op : Op T).

Lemma last_moved_from_id xs :
  (forall v : T, moved_from v = v) -> last_moved_from xs = xs.
Proof.
  intros Hid. unfold last_moved_from. apply list_eq. intros i.
  rewrite list_lookup_alter.
  destruct (decide (length xs - 1 = i)) as [<-|]; [|done].
  destruct (xs !! (length xs - 1)); csimpl; by rewrite ?Hid.
Qed.

(** Emplace on a valid vector, at a position the [assert] admits: it
    returns the vector with the new element at [pos], or it throws; it is
    never undefined. *)
Lemma Emplace_valid xs cap pos a lg :
  length xs <= cap -> pos <= length xs ->
  (exists zs cap' lg',
     Emplace pos a (vector_of xs cap) lg = Returns (vector_of zs cap', lg') pos
     /\ length zs = S (length xs)
     /\ cap' = (if length xs =? cap then doubled cap else cap))
  \/ (exists this' lg',
        Emplace pos a (vector_of xs cap) lg = Throws (this', lg')
        /\ Size this' = length xs /\ Capacity this' = cap).
Proof.
  intros Hle Hpos. destruct (decide (length xs = cap)) as [<- | Hne].
  - rewrite Nat.eqb_refl.
    destruct (Emplace_realloc a lg Hpos) as [[lg' Hr] | [_ [lg' Ht]]].
    + left. eexists _, _, lg'. split; [done|]. split; [|done].
      rewrite length_app, length_take. cbn [length]. rewrite length_drop. lia.
    + right. by eexists _, lg'.
  - replace (length xs =? cap) with false by (symmetry; apply Nat.eqb_neq; lia).
    destruct (Emplace_in_place (xs := xs) (cap := cap) (pos := pos) a lg) as [lg1 He];
      [lia | done |].
    cbv zeta in He.
    assert (Hlen : length (take pos (last_moved_from xs)
                           ++ arg_value a :: drop pos (last_moved_from xs))
                   = S (length xs)).
    { rewrite length_app, length_take. cbn [length].
      rewrite length_drop, length_last_moved_from. lia. }
    destruct a as [v|v]; [destruct (copy_throws lg1 v)|].
    + right. by eexists _, _.
    + left. by eexists _, cap, _.
    + left. by eexists _, cap, _.
Qed.

Lemma PushBack_valid xs cap a lg :
  length xs <= cap ->
  (exists lg',
     PushBack a (vector_of xs cap) lg
     = Returns (vector_of (xs ++ [arg_value a])
                  (if length xs =? cap then doubled cap else cap), lg') tt
     /\ (length xs < cap -> lg' = arg_event a :: lg))
  \/ (some_throw T /\
      exists lg', PushBack a (vector_of xs cap) lg = Throws (vector_of xs cap, lg')).
Proof.
  intros Hle. destruct (decide (length xs = cap)) as [<- | Hne].
  - rewrite Nat.eqb_refl.
    destruct (PushBack_realloc xs a lg) as [[lg' Hr] | Ht]; [left | by right].
    exists lg'. split; [done | lia].
  - replace (length xs =? cap) with false by (symmetry; apply Nat.eqb_neq; lia).
    rewrite PushBack_in_place by lia.
    destruct (arg_throws lg a) eqn:Hthrow.
    + right. split; [by eapply arg_throws_some | by eexists].
    + left. by eexists.
Qed.

(** An operation that returns leaves a valid vector valid. *)
Lemma valid_after_return op this lg this' lg' :
  valid this = true ->
  apply_op op this lg = Returns (this', lg') tt ->
  valid this' = true.
Proof.
  intros Hv. destruct (valid_is_vector_of Hv) as (xs & cap & -> & Hle). clear Hv.
  destruct op as [a | | pos a | pos]; cbn [apply_op]; intros Hop.
  - destruct (PushBack_valid a lg Hle) as [(l & Hr & _) | (_ & l & Ht)];
      rewrite ?Hr, ?Ht in Hop; [|done].
    inversion Hop. apply valid_vector_of. rewrite length_snoc.
    destruct (Nat.eqb_spec (length xs) cap) as [<-|]; [|lia].
    pose proof (doubled_gt (length xs)). lia.
  - destruct xs as [|x init _] using rev_ind.
    + rewrite PopBack_empty in Hop. inversion Hop. by apply valid_vector_of.
    + rewrite length_snoc in Hle. rewrite PopBack_nonempty in Hop by lia.
      inversion Hop. apply valid_vector_of. lia.
  - unfold Insert in Hop. destruct (Nat.leb_spec pos (length xs)) as [Hpos | Hpos].
    + destruct (Emplace_valid a lg Hle Hpos)
        as [(zs & cap' & l & Hr & Hzs & Hcap) | (t & l & Ht & _)];
        rewrite ?Hr, ?Ht in Hop; [|done].
      inversion Hop. apply valid_vector_of. rewrite Hzs, Hcap.
      destruct (Nat.eqb_spec (length xs) cap) as [<-|]; [|lia].
      pose proof (doubled_gt (length xs)). lia.
    + unfold Emplace in Hop. cbn [vector_of size_] in Hop.
      by replace (pos <=? length xs) with false in Hop
        by (symmetry; apply Nat.leb_gt; lia).
  - destruct (Nat.ltb_spec pos (length xs)) as [Hpos | Hpos].
    + destruct (lookup_lt_is_Some_2 xs pos Hpos) as [x Hx].
      rewrite (Erase_valid lg Hle Hx) in Hop.
      inversion Hop. apply valid_vector_of.
      rewrite length_app, length_take, length_drop. lia.
    + unfold Erase in Hop. cbn [vector_of size_] in Hop.
      by replace (pos <? length xs) with false in Hop
        by (symmetry; apply Nat.ltb_ge; lia).
Qed.


(** [Size() <= Capacity()] also after an operation that throws. *)
Lemma size_le_capacity_after_throw op this lg this' lg' :
  valid this = true ->
  apply_op op this lg = Throws (this', lg') ->
  Size this' <= Capacity this'.
Proof.
  intros Hv. destruct (valid_is_vector_of Hv) as (xs & cap & -> & Hle). clear Hv.
  destruct op as [a | | pos a | pos]; cbn [apply_op]; intros Hop.
  - destruct (PushBack_valid a lg Hle) as [(l & Hr & _) | (_ & l & Ht)];
      rewrite ?Hr, ?Ht in Hop; [done|].
    inversion Hop. by cbn.
  - destruct xs as [|x init _] using rev_ind.
    + by rewrite PopBack_empty in Hop.
    + rewrite length_snoc in Hle. by rewrite PopBack_nonempty in Hop by lia.
  - unfold Insert in Hop. destruct (Nat.leb_spec pos (length xs)) as [Hpos | Hpos].
    + destruct (Emplace_valid a lg Hle Hpos)
        as [(zs & cap' & l & Hr & _) | (t & l & Ht & Hs & Hc)];
        rewrite ?Hr, ?Ht in Hop; [done|].
      cbn [forget] in Hop. inversion Hop. subst. by rewrite Hs.
    + unfold Emplace in Hop. cbn [vector_of size_] in Hop.
      by replace (pos <=? length xs) with false in Hop
        by (symmetry; apply Nat.leb_gt; lia).
  - destruct (Nat.ltb_spec pos (length xs)) as [Hpos | Hpos].
    + destruct (lookup_lt_is_Some_2 xs pos Hpos) as [x Hx].
      by rewrite (Erase_valid lg Hle Hx) in Hop.
    + unfold Erase in Hop. cbn [vector_of size_] in Hop.
      by replace (pos <? length xs) with false in Hop
        by (symmetry; apply Nat.ltb_ge; lia).
Qed.

(** Every sequence of operations that return keeps the invariant. *)
Lemma valid_after_run ops : forall this lg this' lg',
  valid this = true ->
  run ops this lg = Returns (this', lg') tt ->
  valid this' = true.
Proof.
  induction ops as [|op ops IH]; intros this lg this' lg' Hv Hrun; cbn [run] in Hrun.
  - by inversion Hrun; subst.
  - destruct (apply_op op this lg) as [[this1 lg1] [] | |] eqn:Hop; [|done|done].
    eapply IH; [|done]. by eapply valid_after_return.
Qed.

End Invariant.

(** * The properties of the specification *)

Section Guarantees.
Context {T : Type} `{Element T} `{Allocator T}.
Implicit Types (xs : list T) (this : Vector T) (lg : Log T) (st : gmap nat (Vector T)).

(** C1.  Strong exception guarantee of Reserve.  For an element type whose
    relocation goes by copy, when Reserve lets an exception propagate (a copy
    constructor threw, or the allocation did), the vector is the one it was
    before the call: same size, same capacity, same element values. *)
Theorem Reserve_strong_exception_guarantee new_capacity this lg this' lg' :
  is_nothrow_move_constructible || negb is_copy_constructible = false ->
  Reserve new_capacity this lg = Throws (this', lg') ->
  this' = this
  /\ Size this' = Size this
  /\ Capacity this' = Capacity this
  /\ elements this' = elements this.
Proof.
  intros Hcopy. unfold Reserve. rewrite Hcopy.
  assert (this' = this -> this' = this /\ Size this' = Size this
            /\ Capacity this' = Capacity this /\ elements this' = elements this)
    as Hsame by (by intros ->).
  destruct (new_capacity <=? capacity_ (data_ this)); [done|].
  destruct (RawMemory_ctor new_capacity lg) as [lg0 new_data | lg0 |];
    [| intros [= <- _]; by apply Hsame | done].
  destruct (uninitialized_copy_n _ _ _ _ _ _) as [[new lg1] [] | [new lg1] |];
    [| intros [= <- _]; by apply Hsame | done].
  destruct (destroy_n _ _ _ _) as [[old' lg2]|]; done.
Qed.

(** C6.  Copy assignment into storage that suffices.  For two distinct
    valid vectors A (at [a]) and B (at [b]) with B.Size() <= A.Capacity(),
    [A = B] either lets an exception of an element copy propagate or returns
    with A holding the elements of B in the capacity A had, its size that of
    B, every other object as it was, having performed exactly: the copy
    assignments of B's first min(A.Size(), B.Size()) elements, then the
    destructors of A's extra tail (shrinking) or the copy constructions of
    B's extra tail (growing); no allocation takes place. *)
Theorem copy_assign_reuses_storage (a b : nat) st (A B : Vector T) lg :
  a <> b -> st !! a = Some A -> st !! b = Some B ->
  valid A = true -> valid B = true -> Size B <= Capacity A ->
  let A' := vector_of (elements B) (Capacity A) in
  (Capacity A' = Capacity A /\ Size A' = Size B /\ elements A' = elements B
   /\ valid A' = true)
  /\ (copy_assign a b st lg
      = Returns (<[a := A']> st, reuse_log (elements A) (elements B) lg) tt
      \/ (some_copy_throw T /\ exists s, copy_assign a b st lg = Throws s)).
Proof.
  intros Hne Ha Hb HA HB Hfit.
  destruct (valid_is_vector_of HA) as (xs & cap & -> & Hxs).
  destruct (valid_is_vector_of HB) as (ys & rcap & -> & Hys).
  rewrite !elements_vector_of. cbn [Capacity Size vector_of data_ capacity_ size_] in *.
  split.
  { split; [done|]. split; [done|]. split; [apply elements_vector_of|].
    by apply valid_vector_of. }
  unfold copy_assign. rewrite Ha, Hb.
  destruct (decide (a <> b)); [|done].
  cbn [vector_of data_ capacity_ size_].
  replace (cap <? length ys) with false by (symmetry; apply Nat.ltb_ge; lia).
  destruct (ResizeToSmallerRhs_valid lg Hxs Hys Hfit) as [Hr | (Hsome & [A' lg'] & Ht)].
  - left. by rewrite Hr.
  - right. split; [done|]. rewrite Ht. by eexists.
Qed.

(** C7.  Move construction.  Constructing B at the free address [this]
    from the vector A at [other] always completes (the constructor is
    [noexcept]: the operation has no outcome but a store) and leaves at
    [this] the very vector A was, with its size, capacity and elements, and
    at [other] the empty vector, of size 0, capacity 0 and no storage; no
    other object changes. *)
Theorem move_ctor_transfers_storage (this other : nat) st (A : Vector T) :
  st !! this = None -> st !! other = Some A ->
  exists st',
    Vector_move_ctor this other st = Some st'
    /\ st' !! this = Some A
    /\ st' !! other = Some Vector_default
    /\ Size (@Vector_default T) = 0
    /\ Capacity (@Vector_default T) = 0
    /\ buffer_ (data_ (@Vector_default T)) = []
    /\ forall i, i <> this -> i <> other -> st' !! i = st !! i.
Proof.
  intros Hfree HA.
  assert (Hne : this <> other) by congruence.
  unfold Vector_move_ctor. rewrite Hfree.
  rewrite (Swap_objects (this := this) (other := other)
             (A := Vector_default) (B := A))
    by (by rewrite ?lookup_insert_eq, ?lookup_insert_ne).
  eexists. split; [done|].
  rewrite lookup_insert_ne, !lookup_insert_eq by congruence.
  repeat split; try done.
  intros i Hi Hi'. by rewrite !lookup_insert_ne by congruence.
Qed.

(** Erase on a valid vector, used for C8. *)
Lemma Erase_returns this pos lg :
  valid this = true -> pos < Size this ->
  let xs := elements this in
  (exists x,
     xs !! pos = Some x
     /\ Erase pos this lg
        = Returns (vector_of (take pos xs ++ drop (S pos) xs) (Capacity this),
                   EvDtor (from_option moved_from x (last (drop (S pos) xs)))
                   :: (EvMoveAssign <$> reverse (drop (S pos) xs)) ++ lg) pos)
  /\ length (take pos xs ++ drop (S pos) xs) = Size this - 1
  /\ (take pos xs ++ drop (S pos) xs) !! pos = xs !! S pos.
Proof.
  intros Hv Hpos.
  destruct (valid_is_vector_of Hv) as (xs & cap & -> & Hle).
  rewrite elements_vector_of. cbn [Capacity Size vector_of data_ capacity_ size_] in *.
  split; [|split].
  - destruct (lookup_lt_is_Some_2 xs pos Hpos) as [x Hx].
    exists x. split; [done|]. by apply Erase_valid.
  - rewrite length_app, length_take, length_drop. lia.
  - rewrite lookup_app_r by (rewrite length_take; lia).
    rewrite length_take, lookup_drop. f_equal. lia.
Qed.

(** C9.  PopBack.  On a valid vector PopBack always returns: it never
    throws and is never undefined.  On an empty vector it changes nothing
    and performs no operation; on a non-empty one it destroys the last
    element and leaves the others, the size one less, the capacity as it
    was. *)
Theorem PopBack_destroys_last_or_noop this lg :
  valid this = true ->
  (Size this = 0 -> PopBack this lg = Returns (this, lg) tt)
  /\ (0 < Size this ->
      exists x,
        last (elements this) = Some x
        /\ PopBack this lg
           = Returns (vector_of (take (Size this - 1) (elements this)) (Capacity this),
                      EvDtor x :: lg) tt)
  /\ (forall s, PopBack this lg <> Throws s)
  /\ PopBack this lg <> Undefined.
Proof.
  intros Hv.
  destruct (valid_is_vector_of Hv) as (xs & cap & -> & Hle).
  rewrite elements_vector_of. cbn [Capacity Size vector_of data_ capacity_ size_] in *.
  destruct xs as [|x init _] using rev_ind.
  - rewrite PopBack_empty. repeat split; try done. cbn [length]. lia.
  - rewrite length_snoc in *. rewrite PopBack_nonempty by lia.
    repeat split; try done.
    intros _. exists x. rewrite last_snoc. split; [done|].
    replace (S (length init) - 1) with (length init) by lia.
    by rewrite take_app_length.
Qed.

(** C10.  Self-assignment.  Copy-assigning and move-assigning the vector
    at [v] to itself return with the whole store and the log as they were:
    the size, the capacity and the elements are unchanged and no element is
    touched. *)
Theorem self_assignment_is_noop (v : nat) st (V : Vector T) lg :
  st !! v = Some V ->
  copy_assign v v st lg = Returns (st, lg) tt
  /\ move_assign v v st = Some st.
Proof.
  intros HV. unfold copy_assign, move_assign. rewrite HV.
  by destruct (decide (v <> v)).
Qed.

(** The rule of PushBack on a valid vector, used for C5. *)
Lemma PushBack_returns this a lg this' lg' :
  valid this = true ->
  PushBack a this lg = Returns (this', lg') tt ->
  this' = vector_of (elements this ++ [arg_value a])
            (if Size this =? Capacity this then doubled (Capacity this) else Capacity this)
  /\ (Size this < Capacity this -> lg' = arg_event a :: lg).
Proof.
  intros Hv.
  destruct (valid_is_vector_of Hv) as (xs & cap & -> & Hle).
  rewrite elements_vector_of. cbn [Capacity Size vector_of data_ capacity_ size_] in *.
  destruct (PushBack_valid a lg Hle) as [(l & -> & Hl) | (_ & l & ->)]; [|done].
  intros [= <- <-]. done.
Qed.

End Guarantees.

(** ** Scenarios on concrete element types *)

(** C5.  PushBack and the growth of the capacity.  From the empty vector,
    pushing back 1, 2, 3, 4, 5 (by copy or by move) returns each time; the
    capacities after the pushes are 1, 2, 4, 4, 8 and the vector ends as
    [1,2,3,4,5] with size 5.  In general a PushBack that returns on a valid
    vector appends its argument; when the vector was full the capacity
    becomes twice what it was, or 1 when it was 0; otherwise the capacity is
    unchanged and the construction of the new element is the only thing
    that happened: nothing was allocated. *)
Theorem PushBack_doubles_capacity :
  (let after := push_trace (ByCopy <$> [1; 2; 3; 4; 5]%Z) Vector_default [] in
   Capacity <$> after = [1; 2; 4; 4; 8]
   /\ Size <$> after = [1; 2; 3; 4; 5]
   /\ last after = Some (vector_of [1; 2; 3; 4; 5]%Z 8))
  /\ (let after := push_trace (ByMove <$> [1; 2; 3; 4; 5]%Z) Vector_default [] in
      Capacity <$> after = [1; 2; 4; 4; 8]
      /\ Size <$> after = [1; 2; 3; 4; 5]
      /\ last after = Some (vector_of [1; 2; 3; 4; 5]%Z 8))
  /\ (forall (T : Type) (E : Element T) (A : Allocator T)
             (this this' : Vector T) (a : Arg T) (lg lg' : Log T),
        valid this = true ->
        PushBack a this lg = Returns (this', lg') tt ->
        this' = vector_of (elements this ++ [arg_value a])
                  (if Size this =? Capacity this
                   then (if Capacity this =? 0 then 1 else Capacity this * 2)
                   else Capacity this)
        /\ (Size this < Capacity this -> lg' = arg_event a :: lg)).
Proof.
  split; [by vm_compute|]. split; [by vm_compute|].
  intros T E A this this' a lg lg' Hv Hr. by apply PushBack_returns.
Qed.

Lemma PushBack_doubles_capacity_witness :
  let this := vector_of [1; 2]%Z 2 in
  let this' := vector_of [1; 2; 3]%Z 4 in
  let lg' := [EvDeallocate [None; None]; EvDtor 2%Z; EvDtor 1%Z; EvMoveCtor 2%Z;
              EvMoveCtor 1%Z; EvCopyCtor 3%Z; EvAllocate 4] in
  valid this = true
  /\ PushBack (ByCopy 3%Z) this [] = Returns (this', lg') tt
  /\ this' = vector_of (elements this ++ [3%Z])
               (if Size this =? Capacity this
                then (if Capacity this =? 0 then 1 else Capacity this * 2)
                else Capacity this)
  /\ (Size this < Capacity this -> lg' = [EvCopyCtor 3%Z]).
Proof.
  split; [reflexivity|]. split; [reflexivity|].
  apply (proj2 (proj2 PushBack_doubles_capacity) Z int_element plentiful
           (vector_of [1; 2]%Z 2) (vector_of [1; 2; 3]%Z 4) (ByCopy 3%Z) []);
    reflexivity.
Defined.

(** C8.  Erase.  For a valid vector and a position below its size, Erase
    returns; it move-assigns the elements after the position one slot to the
    left, in increasing order, destroys the object in the last live slot
    (the erased element when it was the last, the moved-from last element
    otherwise), and leaves the elements without the one at the position,
    the size one less, the capacity as it was.  It returns the position,
    where the element that followed the erased one now is.  In particular
    Erase at position 1 of the ints [1,2,3,4] leaves [1,3,4], of size 3,
    whatever the capacity. *)
Theorem Erase_shifts_left :
  (forall (T : Type) (E : Element T) (this : Vector T) (pos : nat) (lg : Log T),
     valid this = true -> pos < Size this ->
     let xs := elements this in
     (exists x,
        xs !! pos = Some x
        /\ Erase pos this lg
           = Returns (vector_of (take pos xs ++ drop (S pos) xs) (Capacity this),
                      EvDtor (from_option moved_from x (last (drop (S pos) xs)))
                      :: (EvMoveAssign <$> reverse (drop (S pos) xs)) ++ lg) pos)
     /\ length (take pos xs ++ drop (S pos) xs) = Size this - 1
     /\ (take pos xs ++ drop (S pos) xs) !! pos = xs !! S pos)
  /\ (forall cap lg,
        4 <= cap ->
        Erase 1 (vector_of [1; 2; 3; 4]%Z cap) lg
        = Returns (vector_of [1; 3; 4]%Z cap,
                   EvDtor 4%Z :: EvMoveAssign 4%Z :: EvMoveAssign 3%Z :: lg) 1
        /\ elements (vector_of [1; 3; 4]%Z cap) = [1; 3; 4]%Z
        /\ Size (vector_of [1; 3; 4]%Z cap) = 3).
Proof.
  split; [intros T E this pos lg; apply Erase_returns|].
  intros cap lg Hcap. split; [|by split; [apply elements_vector_of|]].
  by rewrite (Erase_valid (xs := [1; 2; 3; 4]%Z) (pos := 1) (x := 2%Z) lg)
    by (done || (cbn [length]; lia)).
Qed.

(** C2.  The reallocating branch of Emplace at the vector [a, b] with size
    and capacity 2, inserting a copy of [c] at position 1, where copying [b]
    throws.  The exception propagates, the vector is as it was and the new
    element was destroyed; but the new block was released while the copy of
    [a], the prefix already relocated into it, was still live: no destructor
    ran on it. *)
Theorem Emplace_realloc_leaks_relocated_prefix :
  Emplace 1 (ByCopy obj_c) (vector_of [obj_a; obj_b] 2) []
  = Throws (vector_of [obj_a; obj_b] 2,
            [EvDeallocate [Some obj_a; None; None; None];
             EvDtor obj_c; EvCopyThrow obj_b; EvCopyCtor obj_a; EvCopyCtor obj_c;
             EvAllocate 4]).
Proof. reflexivity. Qed.

(** C3.  Insert at the end and PushBack on a vector of [std::unique_ptr<int>]
    holding one pointer to 1, with capacity 2.  PushBack leaves the pointers
    to 1 and 2; Insert at position [size] moves from the last element before
    it constructs the new one and leaves a null pointer where the pointer to
    1 was. *)
Theorem Insert_at_end_moves_from_last :
  Insert 1 (ByMove (Some 2%Z)) (vector_of [Some 1%Z] 2) []
  = Returns (vector_of [None; Some 2%Z] 2,
             [EvMoveCtor (Some 2%Z); EvDtor (Some 1%Z); EvMoveCtor (Some 1%Z)]) 1
  /\ PushBack (ByMove (Some 2%Z)) (vector_of [Some 1%Z] 2) []
     = Returns (vector_of [Some 1%Z; Some 2%Z] 2, [EvMoveCtor (Some 2%Z)]) tt
  /\ vector_of [None; Some 2%Z] 2 <> vector_of [Some 1%Z; Some 2%Z] 2.
Proof. by repeat split. Qed.

(** C4.  Insert in place when the copy of the new element throws: the
    vector [a] with capacity 2, inserting at position 0 a copy of [b], whose
    copy constructor throws.  The exception propagates with size 1, slot 0
    raw memory and slot 1 live, which is not a valid state; the destructor
    of the vector is then undefined, it destroys slot 0. *)
Theorem Insert_throw_leaves_raw_slot :
  let hole := {| data_ := {| buffer_ := [None; Some obj_a]; capacity_ := 2 |};
                 size_ := 1 |} in
  let lg' := [EvCopyThrow obj_b; EvDtor obj_a; EvMoveAssign obj_a; EvMoveCtor obj_a] in
  valid (vector_of [obj_a] 2) = true
  /\ Insert 0 (ByCopy obj_b) (vector_of [obj_a] 2) [] = Throws (hole, lg')
  /\ valid hole = false
  /\ Vector_dtor hole lg' = None.
Proof. by repeat split. Qed.

(** ** What does hold of Insert *)

(** Insert at position 0 of the ints [1,2,3] with value 0, whatever the
    capacity: [0,1,2,3], size 4. *)
Lemma Insert_front_ints cap :
  3 <= cap ->
  exists cap' lg',
    Insert 0 (ByCopy 0%Z) (vector_of [1; 2; 3]%Z cap) []
    = Returns (vector_of [0; 1; 2; 3]%Z cap', lg') 0
    /\ Size (vector_of [0; 1; 2; 3]%Z cap') = 4.
Proof.
  intros Hcap. unfold Insert.
  destruct (decide (cap = 3)) as [-> | Hne].
  - eexists 6, _. split; reflexivity.
  - destruct (Emplace_in_place (xs := [1; 2; 3]%Z) (cap := cap) (pos := 0)
                (ByCopy 0%Z) []) as [lg1 He]; [cbn; lia | cbn; lia |].
    rewrite He. by eexists _, _.
Qed.

(** For an element type whose moved-from objects keep their value, Insert at
    the end and PushBack leave the same vector. *)
Lemma Insert_at_end_as_PushBack {T : Type} `{Element T} `{Allocator T}
    (this v1 v2 : Vector T) (a : Arg T) (lg1 lg2 lg1' lg2' : Log T) (p : nat) :
  (forall v : T, moved_from v = v) ->
  valid this = true ->
  Insert (Size this) a this lg1 = Returns (v1, lg1') p ->
  PushBack a this lg2 = Returns (v2, lg2') tt ->
  v1 = v2 /\ p = Size this.
Proof.
  intros Hid Hv.
  destruct (valid_is_vector_of Hv) as (xs & cap & -> & Hle).
  cbn [Size vector_of size_]. unfold Insert.
  destruct (PushBack_valid a lg2 Hle) as [(l & -> & _) | (_ & l & ->)]; [|done].
  destruct (decide (length xs = cap)) as [<- | Hne].
  - rewrite Nat.eqb_refl.
    destruct (Emplace_realloc (xs := xs) (pos := length xs) a lg1 (le_n _))
      as [[l' ->] | [_ [l' ->]]]; [|done].
    rewrite firstn_all, drop_all. by intros [= <- _ <-] [= <- _].
  - replace (length xs =? cap) with false by (symmetry; apply Nat.eqb_neq; lia).
    destruct (Emplace_in_place (xs := xs) (cap := cap) (pos := length xs) a lg1)
      as [l' ->]; [lia | done |].
    cbv zeta. rewrite last_moved_from_id, firstn_all, drop_all by done.
    destruct a as [v|v]; [destruct (copy_throws l' v)|];
      (done || by intros [= <- _ <-] [= <- _]).
Qed.

(** The reallocating branch keeps the strong guarantee: when Emplace on a
    full vector throws, the vector is the one it was. *)
Lemma Emplace_full_strong_guarantee {T : Type} `{Element T} `{Allocator T}
    (this this' : Vector T) (pos : nat) (a : Arg T) (lg lg' : Log T) :
  Size this = Capacity this ->
  Emplace pos a this lg = Throws (this', lg') ->
  this' = this.
Proof.
  unfold Size. intros Hfull. unfold Emplace. rewrite Hfull, Nat.eqb_refl.
  destruct (negb _); [done|].
  destruct (RawMemory_ctor _ lg) as [lg0 new_data | lg0 |];
    [| by intros [= <- _] | done].
  destruct (construct_at _ _ _ _) as [[new lg1] [] | [new lg1] |];
    [| by intros [= <- _] | done].
  destruct (_ || _).
  - destruct (uninitialized_move_n _ _ _ _ _ _) as [[[old1 new1] lg2]|]; [|done].
    cbn [noexcept].
    destruct (uninitialized_move_n _ _ _ _ _ _) as [[[old2 new2] lg3]|]; [|done].
    cbn [noexcept].
    destruct (destroy_n _ _ _ _) as [[old' lg4]|]; [|done].
    cbn [noexcept RawMemory_Swap].
    by destruct (RawMemory_plus _ _).
  - destruct (uninitialized_copy_n _ _ _ _ _ _) as [[new1 lg2] [] | [new1 lg2] |];
      [| | done].
    + destruct (uninitialized_copy_n _ _ _ _ _ _) as [[new2 lg3] [] | [new2 lg3] |];
        [| | done].
      * destruct (destroy_n _ _ _ _) as [[old' lg4]|]; [|done].
        cbn [noexcept RawMemory_Swap].
        by destruct (RawMemory_plus _ _).
      * destruct (destroy_n _ _ _ _) as [[new'' lg'']|]; [|done].
        by intros [= <- _].
    + destruct (destroy_n _ _ _ _) as [[new'' lg'']|]; [|done].
      by intros [= <- _].
Qed.

(** ** The general properties at concrete vectors *)

Lemma Reserve_strong_exception_guarantee_witness :
  let this := vector_of [obj_a; obj_b] 2 in
  let lg' := [EvDeallocate (replicate 5 None); EvDtor obj_a; EvCopyThrow obj_b;
              EvCopyCtor obj_a; EvAllocate 5] in
  @is_nothrow_move_constructible Obj _ || negb (@is_copy_constructible Obj _) = false
  /\ Reserve 5 this [] = Throws (this, lg')
  /\ (this = this /\ Size this = Size this /\ Capacity this = Capacity this
      /\ elements this = elements this).
Proof.
  split; [reflexivity|]. split; [reflexivity|].
  apply (Reserve_strong_exception_guarantee (T := Obj) (new_capacity := 5)
           (this := vector_of [obj_a; obj_b] 2) (lg := [])
           (lg' := [EvDeallocate (replicate 5 None); EvDtor obj_a; EvCopyThrow obj_b;
                    EvCopyCtor obj_a; EvAllocate 5]));
    reflexivity.
Defined.

Lemma copy_assign_reuses_storage_witness :
  let A := vector_of [1; 2; 3]%Z 4 in
  let B := vector_of [7; 8]%Z 2 in
  let A' := vector_of (elements B) (Capacity A) in
  0 <> 1
  /\ two_vectors !! 0 = Some A
  /\ two_vectors !! 1 = Some B
  /\ valid A = true
  /\ valid B = true
  /\ Size B <= Capacity A
  /\ (Capacity A' = Capacity A /\ Size A' = Size B /\ elements A' = elements B
      /\ valid A' = true)
  /\ (copy_assign 0 1 two_vectors []
      = Returns (<[0 := A']> two_vectors, reuse_log (elements A) (elements B) []) tt
      \/ (some_copy_throw Z /\ exists s, copy_assign 0 1 two_vectors [] = Throws s)).
Proof.
  split; [discriminate|]. split; [reflexivity|]. split; [reflexivity|].
  split; [reflexivity|]. split; [reflexivity|]. split; [vm_compute; lia|].
  apply (copy_assign_reuses_storage (T := Z) (a := 0) (b := 1) (st := two_vectors)
           (A := vector_of [1; 2; 3]%Z 4) (B := vector_of [7; 8]%Z 2) []);
    [discriminate | reflexivity | reflexivity | reflexivity | reflexivity
    | vm_compute; lia].
Defined.

Lemma move_ctor_transfers_storage_witness :
  two_vectors !! 2 = None
  /\ two_vectors !! 1 = Some (vector_of [7; 8]%Z 2)
  /\ exists st',
       Vector_move_ctor 2 1 two_vectors = Some st'
       /\ st' !! 2 = Some (vector_of [7; 8]%Z 2)
       /\ st' !! 1 = Some Vector_default
       /\ Size (@Vector_default Z) = 0
       /\ Capacity (@Vector_default Z) = 0
       /\ buffer_ (data_ (@Vector_default Z)) = []
       /\ forall i, i <> 2 -> i <> 1 -> st' !! i = two_vectors !! i.
Proof.
  split; [reflexivity|]. split; [reflexivity|].
  apply (move_ctor_transfers_storage (T := Z) (this := 2) (other := 1)
           (st := two_vectors) (A := vector_of [7; 8]%Z 2)); reflexivity.
Defined.

Lemma Erase_shifts_left_witness :
  let this := vector_of [1; 2; 3; 4]%Z 4 in
  let xs := elements this in
  valid this = true
  /\ 1 < Size this
  /\ ((exists x,
         xs !! 1 = Some x
         /\ Erase 1 this []
            = Returns (vector_of (take 1 xs ++ drop 2 xs) (Capacity this),
                       EvDtor (from_option moved_from x (last (drop 2 xs)))
                       :: (EvMoveAssign <$> reverse (drop 2 xs)) ++ []) 1)
      /\ length (take 1 xs ++ drop 2 xs) = Size this - 1
      /\ (take 1 xs ++ drop 2 xs) !! 1 = xs !! 2).
Proof.
  split; [reflexivity|]. split; [vm_compute; lia|].
  apply (proj1 Erase_shifts_left Z int_element (vector_of [1; 2; 3; 4]%Z 4) 1 []);
    [reflexivity | vm_compute; lia].
Defined.

Lemma PopBack_destroys_last_or_noop_witness :
  let this := vector_of [1; 2; 3]%Z 4 in
  valid this = true
  /\ ((Size this = 0 -> PopBack this [] = Returns (this, []) tt)
      /\ (0 < Size this ->
          exists x,
            last (elements this) = Some x
            /\ PopBack this []
               = Returns (vector_of (take (Size this - 1) (elements this)) (Capacity this),
                          [EvDtor x]) tt)
      /\ (forall s, PopBack this [] <> Throws s)
      /\ PopBack this [] <> Undefined).
Proof.
  split; [reflexivity|].
  apply (PopBack_destroys_last_or_noop (T := Z) (this := vector_of [1; 2; 3]%Z 4) []).
  reflexivity.
Defined.

Lemma self_assignment_is_noop_witness :
  two_vectors !! 0 = Some (vector_of [1; 2; 3]%Z 4)
  /\ copy_assign 0 0 two_vectors [] = Returns (two_vectors, []) tt
  /\ move_assign 0 0 two_vectors = Some two_vectors.
Proof.
  split; [reflexivity|].
  apply (self_assignment_is_noop (T := Z) (v := 0) (st := two_vectors)
           (V := vector_of [1; 2; 3]%Z 4) []).
  reflexivity.
Defined.

(** * Further properties of the code *)

Section Further.
Context {T : Type} `{Element T} `{Allocator T}.
Implicit Types (xs ys : list T) (this : Vector T) (lg : Log T) (st : gmap nat (Vector T)).


(** X2.  Reserve releases what it allocated.  When a growing Reserve on a
    valid vector throws, either the allocation itself failed, or the new
    block is released with every one of its [new_capacity] slots raw: the
    copies made before the throw were destroyed. *)
Theorem Reserve_throw_releases_raw_block new_capacity this lg this' lg' :
  valid this = true ->
  Reserve new_capacity this lg = Throws (this', lg') ->
  lg' = EvAllocThrow new_capacity :: lg
  \/ exists lg'', lg' = EvDeallocate (replicate new_capacity None) :: lg''.
Proof.
  intros Hv. destruct (valid_is_vector_of Hv) as (xs & cap & -> & Hle).
  destruct (Nat.le_gt_cases new_capacity cap) as [Hfit | Hgrow].
  - by rewrite Reserve_enough.
  - destruct (Reserve_grow lg Hle Hgrow) as [[l ->] | (_ & l & -> & Hl)]; [done|].
    by intros [= _ <-].
Qed.

Lemma Vector_dtor_valid xs cap lg :
  length xs <= cap ->
  Vector_dtor (vector_of xs cap) lg
  = Some (EvDeallocate (replicate cap None) :: (EvDtor <$> reverse xs) ++ lg).
Proof.
  intros Hle. unfold Vector_dtor, vector_of. cbn [data_ size_ buffer_].
  rewrite (destroy_n_at (pre := []) (vs := xs) (post := replicate (cap - length xs) None))
    by done.
  cbn [mbind option_bind app]. unfold RawMemory_dtor, with_slots, Deallocate.
  cbn [buffer_]. rewrite <- replicate_add.
  replace (length xs + (cap - length xs)) with cap by lia. done.
Qed.

(** X3.  The destructor of a valid vector runs the destructor of every
    element, first to last, and then releases the block with all of its
    slots raw; it is never undefined. *)
Theorem Vector_dtor_destroys_all this lg :
  valid this = true ->
  Vector_dtor this lg
  = Some (EvDeallocate (replicate (Capacity this) None)
          :: (EvDtor <$> reverse (elements this)) ++ lg).
Proof.
  intros Hv. destruct (valid_is_vector_of Hv) as (xs & cap & -> & Hle).
  rewrite elements_vector_of. by apply Vector_dtor_valid.
Qed.

Lemma Vector_copy_ctor_valid xs cap lg :
  length xs <= cap ->
  (exists lg',
     Vector_copy_ctor (vector_of xs cap) lg = Returns lg' (vector_of xs (length xs)))
  \/ (some_throw T /\
      exists lg',
        Vector_copy_ctor (vector_of xs cap) lg = Throws lg'
        /\ (lg' = EvAllocThrow (length xs) :: lg
            \/ exists lg'', lg' = EvDeallocate (replicate (length xs) None) :: lg'')).
Proof.
  intros Hle. unfold Vector_copy_ctor, RawMemory_ctor, Allocate, with_slots.
  cbn [vector_of data_ size_ buffer_ capacity_].
  set (n := length xs) in *.
  assert (Hfin : forall blk : Block T, blk = Some <$> xs ->
            {| data_ := {| buffer_ := blk; capacity_ := n |}; size_ := n |}
            = vector_of xs n).
  { intros blk ->. apply vector_of_eq; [|done]. fold n.
    by rewrite Nat.sub_diag, app_nil_r. }
  destruct (Nat.eqb_spec n 0) as [Hz | Hnz].
  - assert (xs = []) as -> by (by apply nil_length_inv).
    left. eexists. cbn. by rewrite <- Hz.
  - destruct (alloc_fails lg n) eqn:Ha.
    { right. split; [right; by exists lg, n|]. eexists. split; [done | by left]. }
    cbn [buffer_ capacity_].
    destruct (uninitialized_copy_n_at (s := 0) (n := n) (d := 0)
                (src := (Some <$> xs) ++ replicate (cap - n) None)
                (dst := replicate n None)
                (spre := []) (vs := xs) (spost := replicate (cap - n) None)
                (pre := []) (post := []) (EvAllocate n :: lg))
      as [Hr | (lg0 & v & lg' & Hv & Ht)]; rewrite ?Hr, ?Ht;
      try done; try (by rewrite app_nil_r).
    + left. eexists. cbn [app]. by rewrite Hfin by (by rewrite app_nil_r).
    + right. split; [left; by exists lg0, v|]. eexists. split; [done|].
      right. by eexists.
Qed.

(** X4.  The copy constructor.  Copying a valid vector either throws,
    having released whatever it allocated with no live object in it, or
    returns a valid vector with the same elements, in the same order, whose
    capacity is the size of the source. *)
Theorem Vector_copy_ctor_copies other lg :
  valid other = true ->
  (exists lg',
     Vector_copy_ctor other lg = Returns lg' (vector_of (elements other) (Size other))
     /\ valid (vector_of (elements other) (Size other)) = true)
  \/ (some_throw T /\
      exists lg',
        Vector_copy_ctor other lg = Throws lg'
        /\ (lg' = EvAllocThrow (Size other) :: lg
            \/ exists lg'', lg' = EvDeallocate (replicate (Size other) None) :: lg'')).
Proof.
  intros Hv. destruct (valid_is_vector_of Hv) as (xs & cap & -> & Hle).
  rewrite elements_vector_of. cbn [Size vector_of size_].
  destruct (Vector_copy_ctor_valid lg Hle) as [[lg' Hr] | Ht]; [left | by right].
  exists lg'. split; [done|]. by apply valid_vector_of.
Qed.

(** X5.  Copy assignment that must reallocate.  For two distinct valid
    vectors A (at [a]) and B (at [b]) with B.Size() > A.Capacity(), [A = B]
    either throws with every object as it was, or returns with A holding
    the elements of B in a capacity equal to B's size, every other object
    as it was, the old elements of A destroyed and its old block released
    with all slots raw. *)
Theorem copy_assign_reallocates (a b : nat) st (A B : Vector T) lg :
  a <> b -> st !! a = Some A -> st !! b = Some B ->
  valid A = true -> valid B = true -> Capacity A < Size B ->
  (exists lg1,
     copy_assign a b st lg
     = Returns (<[a := vector_of (elements B) (Size B)]> st,
                EvDeallocate (replicate (Capacity A) None)
                :: (EvDtor <$> reverse (elements A)) ++ lg1) tt)
  \/ (some_throw T /\ exists lg', copy_assign a b st lg = Throws (st, lg')).
Proof.
  intros Hne Ha Hb HA HB Hbig.
  destruct (valid_is_vector_of HA) as (xs & cap & -> & Hxs).
  destruct (valid_is_vector_of HB) as (ys & rcap & -> & Hys).
  rewrite !elements_vector_of. cbn [Capacity Size vector_of data_ capacity_ size_] in *.
  unfold copy_assign. rewrite Ha, Hb.
  destruct (decide (a <> b)); [|done].
  change (capacity_ (data_ (vector_of xs cap))) with cap.
  change (size_ (vector_of ys rcap)) with (length ys).
  replace (cap <? length ys) with true by (symmetry; apply Nat.ltb_lt; lia).
  destruct (Vector_copy_ctor_valid lg Hys) as [[lg1 Hr] | (Hsome & lg' & Ht & _)].
  - left. exists lg1. rewrite Hr.
    change (Vector_Swap (vector_of xs cap) (vector_of ys (length ys)))
      with (vector_of ys (length ys), vector_of xs cap).
    cbv iota beta. by rewrite (Vector_dtor_valid lg1 Hxs).
  - right. split; [done|]. exists lg'. by rewrite Ht.
Qed.

End Further.

Section Sequences.
Context {T : Type} `{Element T} `{Allocator T}.
Implicit Types (xs ys : list T) (this : Vector T) (lg : Log T) (op : Op T).

(** X6.  No reallocation within the capacity.  On a valid vector with room
    for all of them, a sequence of PushBack calls that return appends the
    values in order and leaves the capacity as it was; the constructions of
    the new elements are the only operations performed, nothing is
    allocated, moved or destroyed. *)
Theorem PushBack_within_capacity (values : list (Arg T)) this lg this' lg' :
  valid this = true ->
  Size this + length values <= Capacity this ->
  run (OpPushBack <$> values) this lg = Returns (this', lg') tt ->
  this' = vector_of (elements this ++ (arg_value <$> values)) (Capacity this)
  /\ lg' = (arg_event <$> reverse values) ++ lg.
Proof.
  intros Hv. destruct (valid_is_vector_of Hv) as (xs & cap & -> & _). clear Hv.
  rewrite elements_vector_of. cbn [Size Capacity vector_of data_ capacity_ size_].
  revert xs lg. induction values as [|a values IH]; intros xs lg Hroom Hrun.
  - cbn in Hrun. inversion Hrun. by rewrite app_nil_r.
  - cbn [length] in Hroom. cbn [fmap list_fmap run apply_op] in Hrun.
    rewrite PushBack_in_place in Hrun by lia.
    destruct (arg_throws lg a); [done|].
    apply IH in Hrun; [|rewrite length_snoc; lia].
    destruct Hrun as [-> ->]. split.
    + by rewrite <- app_assoc.
    + by rewrite fmap_reverse_cons.
Qed.


(** X8.  PushBack then PopBack.  After a PushBack that returned, PopBack
    destroys exactly the element just added and leaves the elements the
    vector had before; when the PushBack did not have to grow, the vector
    is the very one it was. *)
Theorem PushBack_then_PopBack this a lg this1 lg1 :
  valid this = true ->
  PushBack a this lg = Returns (this1, lg1) tt ->
  PopBack this1 lg1
  = Returns (vector_of (elements this) (Capacity this1), EvDtor (arg_value a) :: lg1) tt
  /\ (Size this < Capacity this -> vector_of (elements this) (Capacity this1) = this).
Proof.
  intros Hv. destruct (valid_is_vector_of Hv) as (xs & cap & -> & Hle).
  rewrite elements_vector_of. cbn [Size Capacity vector_of data_ capacity_ size_].
  destruct (PushBack_valid a lg Hle) as [(l & -> & _) | (_ & l & ->)]; [|done].
  intros [= <- <-]. cbn [Capacity vector_of data_ capacity_].
  split.
  - apply PopBack_nonempty.
    destruct (Nat.eqb_spec (length xs) cap) as [<-|]; [|lia].
    apply doubled_gt.
  - intros Hlt.
    by replace (length xs =? cap) with false by (symmetry; apply Nat.eqb_neq; lia).
Qed.

(** Insert on a valid vector, used below. *)
Lemma Insert_returns_spec this pos a lg this' lg' p :
  valid this = true ->
  Insert pos a this lg = Returns (this', lg') p ->
  let full := Size this =? Capacity this in
  let xs := if full then elements this else last_moved_from (elements this) in
  p = pos /\ pos <= Size this
  /\ this' = vector_of (take pos xs ++ arg_value a :: drop pos xs)
               (if full then doubled (Capacity this) else Capacity this).
Proof.
  intros Hv. destruct (valid_is_vector_of Hv) as (xs & cap & -> & Hle).
  rewrite elements_vector_of. cbn [Size Capacity vector_of data_ capacity_ size_].
  unfold Insert. destruct (Nat.leb_spec pos (length xs)) as [Hpos | Hpos]; cycle 1.
  { unfold Emplace. cbn [vector_of size_].
    by replace (pos <=? length xs) with false by (symmetry; apply Nat.leb_gt; lia). }
  destruct (decide (length xs = cap)) as [<- | Hne].
  - rewrite Nat.eqb_refl.
    destruct (Emplace_realloc a lg Hpos) as [[l ->] | [_ [l ->]]]; [|done].
    by intros [= <- _ <-].
  - replace (length xs =? cap) with false by (symmetry; apply Nat.eqb_neq; lia).
    destruct (Emplace_in_place (xs := xs) (cap := cap) (pos := pos) a lg) as [l ->];
      [lia | done |].
    cbv zeta. destruct a as [v|v]; [destruct (copy_throws l v)|];
      (done || by intros [= <- _ <-]).
Qed.



Lemma take_drop_insert_delete xs pos (v : T) :
  pos <= length xs ->
  let zs := take pos xs ++ v :: drop pos xs in
  zs !! pos = Some v /\ take pos zs ++ drop (S pos) zs = xs.
Proof.
  intros Hpos zs. unfold zs.
  assert (Hl : length (take pos xs) = pos) by (rewrite length_take; lia).
  split.
  - by apply list_lookup_middle.
  - rewrite take_app_length' by done.
    rewrite (cons_middle v), app_assoc, drop_app_length'
      by (rewrite length_app, Hl; cbn; lia).
    apply take_drop.
Qed.

(** X10.  Insert then Erase.  After an Insert that returned, Erase at the
    position it returned gives back the elements the vector had: all of
    them when the vector was full, and otherwise all but the last, which is
    left moved from. *)
Theorem Insert_then_Erase this pos a lg this1 lg1 p :
  valid this = true ->
  Insert pos a this lg = Returns (this1, lg1) p ->
  exists lg2,
    Erase p this1 lg1
    = Returns (vector_of (if Size this =? Capacity this then elements this
                          else last_moved_from (elements this))
                 (Capacity this1), lg2) p.
Proof.
  intros Hv Hins.
  destruct (Insert_returns_spec Hv Hins) as (-> & Hpos & ->). clear Hins.
  destruct (valid_is_vector_of Hv) as (xs & cap & -> & Hle).
  rewrite elements_vector_of in *. cbn [Size Capacity vector_of data_ capacity_ size_] in *.
  set (ys := if length xs =? cap then xs else last_moved_from xs).
  assert (Hys : length ys = length xs).
  { unfold ys. destruct (_ =? _); [done | apply length_last_moved_from]. }
  destruct (take_drop_insert_delete (xs := ys) (pos := pos) (arg_value a)) as [Hat Hback];
    [lia|].
  eexists. rewrite (Erase_valid (x := arg_value a)); [by rewrite Hback | | done].
  rewrite length_app, length_take. cbn [length]. rewrite length_drop, Hys.
  destruct (Nat.eqb_spec (length xs) cap) as [<-|]; [|lia].
  pose proof (doubled_gt (length xs)). lia.
Qed.

(** X11.  Erase of the last element is PopBack: on a valid non-empty
    vector the two leave the same vector and perform the same single
    operation, the destructor of the last element; no element is moved. *)
Theorem Erase_last_is_PopBack this lg :
  valid this = true -> 0 < Size this ->
  forget (Erase (Size this - 1) this lg) = PopBack this lg.
Proof.
  intros Hv. destruct (valid_is_vector_of Hv) as (xs & cap & -> & Hle).
  cbn [Size vector_of size_]. intros Hpos.
  destruct xs as [|x init _] using rev_ind; [cbn in Hpos; lia|].
  rewrite length_snoc in *.
  replace (S (length init) - 1) with (length init) by lia.
  rewrite (Erase_valid (x := x)); [| by rewrite length_snoc | by apply list_lookup_middle].
  rewrite PopBack_nonempty by lia.
  rewrite take_app_length, drop_ge by (rewrite length_snoc; lia).
  cbn [forget last from_option reverse rev_append fmap list_fmap app].
  by rewrite app_nil_r.
Qed.


(** X13.  The invariant along a sequence.  From a valid vector, when a
    sequence of operations returns, the vector it leaves is valid; when the
    sequence stops at an operation that throws, the vector that operation
    leaves still has [Size() <= Capacity()]. *)
Theorem run_keeps_invariant ops : forall this lg,
  valid this = true ->
  (forall this' lg', run ops this lg = Returns (this', lg') tt -> valid this' = true)
  /\ (forall this' lg', run ops this lg = Throws (this', lg') ->
      Size this' <= Capacity this').
Proof.
  induction ops as [|op ops IH]; intros this lg Hv; cbn [run].
  - split; [by intros ? ? [= <- _] | done].
  - destruct (apply_op op this lg) as [[this1 lg1] [] | [this1 lg1] |] eqn:Hop.
    + apply IH. by eapply valid_after_return.
    + split; [done|]. intros ? ? [= <- _].
      by eapply size_le_capacity_after_throw.
    + done.
Qed.



End Sequences.

Section Exchange.
Context {T : Type}.
Implicit Types (st : gmap nat (Vector T)).

(** X15.  Swap is its own inverse: swapping the vectors at two addresses
    (the same address or not) twice leaves every object as it was. *)
Theorem Swap_twice (a b : nat) st (A B : Vector T) :
  st !! a = Some A -> st !! b = Some B ->
  Swap a b st ≫= Swap a b = Some st.
Proof.
  intros HA HB. rewrite (Swap_objects HA HB). cbn [mbind option_bind].
  destruct (decide (a = b)) as [<- | Hne].
  - assert (A = B) as <- by congruence.
    rewrite (Swap_objects (A := A) (B := A)) by (by rewrite lookup_insert_eq).
    rewrite !insert_insert_eq. by rewrite insert_id.
  - rewrite (Swap_objects (A := B) (B := A))
      by (by rewrite ?lookup_insert_eq, ?(lookup_insert_ne _ b a), ?lookup_insert_eq).
    f_equal. apply map_eq. intros i.
    destruct (decide (i = b)) as [-> | Hb]; [by rewrite lookup_insert_eq|].
    rewrite (lookup_insert_ne _ b i) by done.
    destruct (decide (i = a)) as [-> | Ha]; [by rewrite lookup_insert_eq|].
    by rewrite !lookup_insert_ne by done.
Qed.

(** X16.  Move assignment between two distinct vectors exchanges them:
    the target takes the size, capacity and elements of the source, and the
    source is left with what the target had, not empty; no other object
    changes and no element is touched. *)
Theorem move_assign_exchanges (a b : nat) st (A B : Vector T) :
  a <> b -> st !! a = Some A -> st !! b = Some B ->
  exists st',
    move_assign a b st = Some st'
    /\ st' !! a = Some B
    /\ st' !! b = Some A
    /\ forall i, i <> a -> i <> b -> st' !! i = st !! i.
Proof.
  intros Hne HA HB. unfold move_assign.
  destruct (decide (a <> b)); [|done].
  rewrite (Swap_objects HA HB). eexists. split; [done|].
  rewrite lookup_insert_ne, !lookup_insert_eq by done.
  repeat split; try done.
  intros i Hi Hi'. by rewrite !lookup_insert_ne by done.
Qed.

End Exchange.

Section ResizeAndIndex.
Context {T : Type} `{Element T} `{Allocator T} `{ValueInit T}.
Implicit Types (xs ys : list T) (this : Vector T) (lg : Log T).


(** X17.  Resize to a size not above the current one.  On a valid vector
    it always returns: it destroys the elements from [new_size] on, first
    to last, keeps the first [new_size] elements and the capacity, and
    performs nothing else; Resize to the current size changes nothing. *)
Theorem Resize_shrinks new_size this lg :
  valid this = true -> new_size <= Size this ->
  Resize new_size this lg
  = Returns (vector_of (take new_size (elements this)) (Capacity this),
             (EvDtor <$> reverse (drop new_size (elements this))) ++ lg) tt
  /\ (new_size = Size this -> vector_of (take new_size (elements this)) (Capacity this) = this).
Proof.
  intros Hv. destruct (valid_is_vector_of Hv) as (xs & cap & -> & Hle).
  rewrite elements_vector_of. cbn [Size Capacity vector_of data_ capacity_ size_].
  intros Hsmall. split; [|intros ->; by rewrite firstn_all].
  unfold Resize, with_slots. cbn [vector_of data_ capacity_ size_ buffer_].
  replace (length xs <? new_size) with false by (symmetry; apply Nat.ltb_ge; lia).
  rewrite (destroy_n_at (pre := Some <$> take new_size xs) (vs := drop new_size xs)
             (post := replicate (cap - length xs) None)); cycle 1.
  { by rewrite app_assoc, <- fmap_app, take_drop. }
  { rewrite length_fmap, length_take. lia. }
  { by rewrite length_drop. }
  cbn [noexcept]. do 2 f_equal. apply vector_of_eq.
  - rewrite length_take, <- replicate_add. do 2 f_equal. lia.
  - rewrite length_take. lia.
Qed.


Lemma Vector_index_valid xs cap i :
  length xs <= cap -> Vector_index (vector_of xs cap) i = xs !! i.
Proof.
  intros Hle. unfold Vector_index, RawMemory_index.
  cbn [vector_of data_ size_ buffer_ capacity_].
  destruct (Nat.ltb_spec i (length xs)) as [Hi | Hi].
  - replace (i <? cap) with true by (symmetry; apply Nat.ltb_lt; lia).
    rewrite lookup_app_l by (by rewrite length_fmap).
    rewrite list_lookup_fmap. by destruct (xs !! i).
  - symmetry. by apply lookup_ge_None.
Qed.

(** Indexing a valid vector, used below. *)
Lemma Vector_index_spec this index :
  valid this = true ->
  Vector_index this index = elements this !! index
  /\ (is_Some (Vector_index this index) <-> index < Size this).
Proof.
  intros Hv. destruct (valid_vector Hv) as (_ & Hlen & _).
  destruct (valid_is_vector_of Hv) as (xs & cap & -> & Hle).
  rewrite elements_vector_of in *. rewrite Vector_index_valid by done.
  split; [done|]. rewrite <- Hlen. apply lookup_lt_is_Some.
Qed.

(** X19.  Indexing.  On a valid vector [operator[]] at [index] is defined
    exactly for the indices below the size, and there it is the element at
    that place in the sequence of elements; it never reads raw memory. *)
Theorem Vector_index_is_element this index :
  valid this = true ->
  Vector_index this index = elements this !! index
  /\ (is_Some (Vector_index this index) <-> index < Size this).
Proof. apply Vector_index_spec. Qed.




End ResizeAndIndex.

(** ** The move operations of RawMemory *)

Lemma Addressed_Swap_objects (this other : nat) (objs : gmap nat Addressed.RawMemory)
    (A B : Addressed.RawMemory) :
  objs !! this = Some A -> objs !! other = Some B ->
  Addressed.Swap this other objs = Some (<[other := A]> (<[this := B]> objs)).
Proof.
  intros HA HB. unfold Addressed.Swap. rewrite HA, HB. cbn.
  destruct A as [abuf acap], B as [bbuf bcap]. cbn.
  destruct (decide (this = other)) as [<- | Hne].
  - assert (abuf = bbuf /\ acap = bcap) as (-> & ->).
    { rewrite HA in HB. by inversion HB. }
    rewrite !lookup_insert_eq. cbn. by rewrite !insert_insert_eq.
  - rewrite (lookup_insert_ne _ other this), !lookup_insert_eq by congruence. cbn.
    apply f_equal, map_eq. intros i.
    destruct (decide (i = other)) as [-> | Hi];
      [by rewrite !lookup_insert_eq|].
    rewrite !(lookup_insert_ne _ other) by congruence.
    destruct (decide (i = this)) as [-> | Hi'];
      [by rewrite !lookup_insert_eq|].
    rewrite !lookup_insert_ne by congruence. done.
Qed.

(** X22.  Move construction of a RawMemory.  Constructing at a free
    address from the object at [other] gives the new object the block and
    the capacity [other] had and leaves [other] with the null pointer and
    capacity 0, so that destroying [other] afterwards releases nothing. *)
Theorem RawMemory_move_ctor_transfers (this other : nat)
    (objs : gmap nat Addressed.RawMemory) (A : Addressed.RawMemory) (heap : gset nat) :
  objs !! this = None -> objs !! other = Some A ->
  exists objs',
    Addressed.RawMemory_move_ctor this other objs = Some objs'
    /\ objs' !! this = Some A
    /\ objs' !! other = Some Addressed.RawMemory_default
    /\ Addressed.RawMemory_dtor Addressed.RawMemory_default heap = Some heap.
Proof.
  intros Hfree HA. assert (this <> other) by congruence.
  unfold Addressed.RawMemory_move_ctor. rewrite Hfree.
  rewrite (Addressed_Swap_objects (A := Addressed.RawMemory_default) (B := A))
    by (by rewrite ?lookup_insert_eq, ?lookup_insert_ne).
  eexists. split; [done|].
  by rewrite lookup_insert_ne, !lookup_insert_eq by congruence.
Qed.

(** X23.  Move assignment of a RawMemory leaves a dangling pointer.  For
    two distinct objects, the target owning the allocated block [p]:
    the assignment releases [p], gives the target the block and capacity of
    the source, and leaves in the source the address [p] with capacity 0.
    The block [p] is no longer allocated, so the destructor of the source,
    which deletes [p] again, is undefined. *)
Theorem RawMemory_move_assign_leaves_dangling (this rhs p : nat)
    (objs : gmap nat Addressed.RawMemory) (A B : Addressed.RawMemory) (heap : gset nat) :
  this <> rhs -> objs !! this = Some A -> objs !! rhs = Some B ->
  Addressed.buffer_ A = Some p -> p ∈ heap ->
  let left_in_rhs := {| Addressed.buffer_ := Some p; Addressed.capacity_ := 0 |} in
  Addressed.move_assign this rhs objs heap
  = Some (<[rhs := left_in_rhs]> (<[this := B]> objs), heap ∖ {[p]})
  /\ ~ (p ∈ heap ∖ {[p]})
  /\ Addressed.RawMemory_dtor left_in_rhs (heap ∖ {[p]}) = None.
Proof.
  intros Hne HA HB Hp Hin left_in_rhs. unfold Addressed.move_assign.
  destruct (decide (this <> rhs)); [|done].
  rewrite HA. cbn [mbind option_bind]. rewrite Hp. cbn [Addressed.Deallocate].
  destruct (decide (p ∈ heap)); [|done]. cbn [mbind option_bind].
  rewrite (Addressed_Swap_objects
             (A := {| Addressed.buffer_ := Some p; Addressed.capacity_ := 0 |}) (B := B))
    by (by rewrite ?lookup_insert_eq, ?lookup_insert_ne).
  cbn [mbind option_bind]. rewrite insert_insert_eq.
  assert (Hgone : ~ (p ∈ heap ∖ {[p]})).
  { intros [_ Hn]%elem_of_difference. by apply Hn, elem_of_singleton. }
  split; [done|]. split; [done|].
  unfold Addressed.RawMemory_dtor, left_in_rhs. cbn [Addressed.buffer_ Addressed.Deallocate].
  by destruct (decide (p ∈ (heap ∖ {[p]}))).
Qed.

(** ** The further properties at concrete vectors *)


Lemma Reserve_throw_releases_raw_block_witness :
  let this := vector_of [obj_a; obj_b] 2 in
  let lg' := [EvDeallocate (replicate 5 None); EvDtor obj_a; EvCopyThrow obj_b;
              EvCopyCtor obj_a; EvAllocate 5] in
  valid this = true
  /\ Reserve 5 this [] = Throws (this, lg')
  /\ (lg' = [EvAllocThrow 5]
      \/ exists lg'', lg' = EvDeallocate (replicate 5 None) :: lg'').
Proof.
  split; [reflexivity|]. split; [reflexivity|].
  apply (Reserve_throw_releases_raw_block (T := Obj) (new_capacity := 5)
           (this := vector_of [obj_a; obj_b] 2) (lg := [])
           (this' := vector_of [obj_a; obj_b] 2)); reflexivity.
Defined.

Lemma Vector_dtor_destroys_all_witness :
  let this := vector_of [1; 2; 3]%Z 4 in
  valid this = true
  /\ Vector_dtor this []
     = Some (EvDeallocate (replicate (Capacity this) None)
             :: (EvDtor <$> reverse (elements this)) ++ []).
Proof.
  split; [reflexivity|].
  apply (Vector_dtor_destroys_all (T := Z) (this := vector_of [1; 2; 3]%Z 4) []).
  reflexivity.
Defined.

Lemma Vector_copy_ctor_copies_witness :
  let other := vector_of [1; 2; 3]%Z 4 in
  valid other = true
  /\ ((exists lg',
         Vector_copy_ctor other [] = Returns lg' (vector_of (elements other) (Size other))
         /\ valid (vector_of (elements other) (Size other)) = true)
      \/ (some_throw Z /\
          exists lg',
            Vector_copy_ctor other [] = Throws lg'
            /\ (lg' = [EvAllocThrow (Size other)]
                \/ exists lg'', lg' = EvDeallocate (replicate (Size other) None) :: lg''))).
Proof.
  split; [reflexivity|].
  apply (Vector_copy_ctor_copies (T := Z) (other := vector_of [1; 2; 3]%Z 4) []).
  reflexivity.
Defined.

Lemma copy_assign_reallocates_witness :
  let A := vector_of [7; 8]%Z 2 in
  let B := vector_of [1; 2; 3]%Z 4 in
  1 <> 0
  /\ two_vectors !! 1 = Some A
  /\ two_vectors !! 0 = Some B
  /\ valid A = true
  /\ valid B = true
  /\ Capacity A < Size B
  /\ ((exists lg1,
         copy_assign 1 0 two_vectors []
         = Returns (<[1 := vector_of (elements B) (Size B)]> two_vectors,
                    EvDeallocate (replicate (Capacity A) None)
                    :: (EvDtor <$> reverse (elements A)) ++ lg1) tt)
      \/ (some_throw Z /\ exists lg', copy_assign 1 0 two_vectors [] = Throws (two_vectors, lg'))).
Proof.
  split; [discriminate|]. split; [reflexivity|]. split; [reflexivity|].
  split; [reflexivity|]. split; [reflexivity|]. split; [vm_compute; lia|].
  apply (copy_assign_reallocates (T := Z) (a := 1) (b := 0) (st := two_vectors)
           (A := vector_of [7; 8]%Z 2) (B := vector_of [1; 2; 3]%Z 4) []);
    [discriminate | reflexivity | reflexivity | reflexivity | reflexivity
    | vm_compute; lia].
Defined.

Lemma PushBack_within_capacity_witness :
  let this := vector_of [1]%Z 4 in
  let values := [ByCopy 2%Z; ByMove 3%Z] in
  let this' := vector_of [1; 2; 3]%Z 4 in
  let lg' := [EvMoveCtor 3%Z; EvCopyCtor 2%Z] in
  valid this = true
  /\ Size this + length values <= Capacity this
  /\ run (OpPushBack <$> values) this [] = Returns (this', lg') tt
  /\ (this' = vector_of (elements this ++ (arg_value <$> values)) (Capacity this)
      /\ lg' = (arg_event <$> reverse values) ++ []).
Proof.
  split; [reflexivity|]. split; [vm_compute; lia|]. split; [reflexivity|].
  apply (PushBack_within_capacity (T := Z) (values := [ByCopy 2%Z; ByMove 3%Z])
           (this := vector_of [1]%Z 4) (lg := []));
    [reflexivity | vm_compute; lia | reflexivity].
Defined.


Lemma PushBack_then_PopBack_witness :
  let this := vector_of [1; 2; 3]%Z 4 in
  let this1 := vector_of [1; 2; 3; 4]%Z 4 in
  let lg1 := [EvCopyCtor 4%Z] in
  valid this = true
  /\ PushBack (ByCopy 4%Z) this [] = Returns (this1, lg1) tt
  /\ (PopBack this1 lg1
      = Returns (vector_of (elements this) (Capacity this1), EvDtor 4%Z :: lg1) tt
      /\ (Size this < Capacity this -> vector_of (elements this) (Capacity this1) = this)).
Proof.
  split; [reflexivity|]. split; [reflexivity|].
  apply (PushBack_then_PopBack (T := Z) (this := vector_of [1; 2; 3]%Z 4)
           (a := ByCopy 4%Z) (lg := [])); reflexivity.
Defined.


Lemma Insert_then_Erase_witness :
  let this := vector_of [1; 2; 3]%Z 4 in
  let this1 := vector_of [0; 1; 2; 3]%Z 4 in
  let lg1 := [EvCopyCtor 0; EvDtor 1; EvMoveAssign 1; EvMoveAssign 2; EvMoveAssign 3;
              EvMoveCtor 3]%Z in
  valid this = true
  /\ Insert 0 (ByCopy 0%Z) this [] = Returns (this1, lg1) 0
  /\ exists lg2,
       Erase 0 this1 lg1
       = Returns (vector_of (if Size this =? Capacity this then elements this
                             else last_moved_from (elements this))
                    (Capacity this1), lg2) 0.
Proof.
  split; [reflexivity|]. split; [reflexivity|].
  apply (Insert_then_Erase (T := Z) (this := vector_of [1; 2; 3]%Z 4) (pos := 0)
           (a := ByCopy 0%Z) (lg := [])); reflexivity.
Defined.

Lemma Erase_last_is_PopBack_witness :
  let this := vector_of [1; 2; 3]%Z 4 in
  valid this = true
  /\ 0 < Size this
  /\ forget (Erase (Size this - 1) this []) = PopBack this [].
Proof.
  split; [reflexivity|]. split; [vm_compute; lia|].
  apply (Erase_last_is_PopBack (T := Z) (this := vector_of [1; 2; 3]%Z 4) []);
    [reflexivity | vm_compute; lia].
Defined.


Lemma run_keeps_invariant_witness :
  let this := vector_of [1; 2; 3]%Z 3 in
  let ops := [OpPushBack (ByCopy 4%Z); OpInsert 1 (ByMove 9%Z); OpErase 0; OpPopBack] in
  valid this = true
  /\ ((forall this' lg', run ops this [] = Returns (this', lg') tt -> valid this' = true)
      /\ (forall this' lg', run ops this [] = Throws (this', lg') ->
          Size this' <= Capacity this')).
Proof.
  split; [reflexivity|].
  apply (run_keeps_invariant (T := Z)
           [OpPushBack (ByCopy 4%Z); OpInsert 1 (ByMove 9%Z); OpErase 0; OpPopBack]
           (this := vector_of [1; 2; 3]%Z 3) []).
  reflexivity.
Defined.


Lemma Swap_twice_witness :
  two_vectors !! 0 = Some (vector_of [1; 2; 3]%Z 4)
  /\ two_vectors !! 1 = Some (vector_of [7; 8]%Z 2)
  /\ Swap 0 1 two_vectors ≫= Swap 0 1 = Some two_vectors.
Proof.
  split; [reflexivity|]. split; [reflexivity|].
  apply (Swap_twice (T := Z) (a := 0) (b := 1) (st := two_vectors)
           (A := vector_of [1; 2; 3]%Z 4) (B := vector_of [7; 8]%Z 2)); reflexivity.
Defined.

Lemma move_assign_exchanges_witness :
  let A := vector_of [1; 2; 3]%Z 4 in
  let B := vector_of [7; 8]%Z 2 in
  0 <> 1
  /\ two_vectors !! 0 = Some A
  /\ two_vectors !! 1 = Some B
  /\ exists st',
       move_assign 0 1 two_vectors = Some st'
       /\ st' !! 0 = Some B
       /\ st' !! 1 = Some A
       /\ forall i, i <> 0 -> i <> 1 -> st' !! i = two_vectors !! i.
Proof.
  split; [discriminate|]. split; [reflexivity|]. split; [reflexivity|].
  apply (move_assign_exchanges (T := Z) (a := 0) (b := 1) (st := two_vectors)
           (A := vector_of [1; 2; 3]%Z 4) (B := vector_of [7; 8]%Z 2));
    [discriminate | reflexivity | reflexivity].
Defined.

Lemma Resize_shrinks_witness :
  let this := vector_of [1; 2; 3]%Z 4 in
  valid this = true
  /\ 1 <= Size this
  /\ (Resize 1 this []
      = Returns (vector_of (take 1 (elements this)) (Capacity this),
                 (EvDtor <$> reverse (drop 1 (elements this))) ++ []) tt
      /\ (1 = Size this -> vector_of (take 1 (elements this)) (Capacity this) = this)).
Proof.
  split; [reflexivity|]. split; [vm_compute; lia|].
  apply (Resize_shrinks (T := Z) (new_size := 1) (this := vector_of [1; 2; 3]%Z 4) []);
    [reflexivity | vm_compute; lia].
Defined.


Lemma Vector_index_is_element_witness :
  let this := vector_of [1; 2; 3]%Z 4 in
  valid this = true
  /\ (Vector_index this 2 = elements this !! 2
      /\ (is_Some (Vector_index this 2) <-> 2 < Size this)).
Proof.
  split; [reflexivity|].
  apply (Vector_index_is_element (T := Z) (this := vector_of [1; 2; 3]%Z 4) 2).
  reflexivity.
Defined.


Lemma RawMemory_move_ctor_transfers_witness :
  let A := {| Addressed.buffer_ := Some 9; Addressed.capacity_ := 2 |} in
  two_memories !! 2 = None
  /\ two_memories !! 1 = Some A
  /\ exists objs',
       Addressed.RawMemory_move_ctor 2 1 two_memories = Some objs'
       /\ objs' !! 2 = Some A
       /\ objs' !! 1 = Some Addressed.RawMemory_default
       /\ Addressed.RawMemory_dtor Addressed.RawMemory_default {[7; 9]} = Some {[7; 9]}.
Proof.
  split; [reflexivity|]. split; [reflexivity|].
  apply (RawMemory_move_ctor_transfers (this := 2) (other := 1) (objs := two_memories)
           (A := {| Addressed.buffer_ := Some 9; Addressed.capacity_ := 2 |}) {[7; 9]});
    reflexivity.
Defined.

Lemma RawMemory_move_assign_leaves_dangling_witness :
  let A := {| Addressed.buffer_ := Some 7; Addressed.capacity_ := 4 |} in
  let B := {| Addressed.buffer_ := Some 9; Addressed.capacity_ := 2 |} in
  let heap : gset nat := {[7; 9]} in
  let left_in_rhs := {| Addressed.buffer_ := Some 7; Addressed.capacity_ := 0 |} in
  0 <> 1
  /\ two_memories !! 0 = Some A
  /\ two_memories !! 1 = Some B
  /\ Addressed.buffer_ A = Some 7
  /\ 7 ∈ heap
  /\ (Addressed.move_assign 0 1 two_memories heap
      = Some (<[1 := left_in_rhs]> (<[0 := B]> two_memories), heap ∖ {[7]})
      /\ ~ (7 ∈ heap ∖ {[7]})
      /\ Addressed.RawMemory_dtor left_in_rhs (heap ∖ {[7]}) = None).
Proof.
  split; [discriminate|]. split; [reflexivity|]. split; [reflexivity|].
  split; [reflexivity|]. split; [by vm_compute|].
  apply (RawMemory_move_assign_leaves_dangling (this := 0) (rhs := 1) (p := 7)
           (objs := two_memories)
           (A := {| Addressed.buffer_ := Some 7; Addressed.capacity_ := 4 |})
           (B := {| Addressed.buffer_ := Some 9; Addressed.capacity_ := 2 |})
           (heap := {[7; 9]}));
    [discriminate | reflexivity | reflexivity | reflexivity | by vm_compute].
Defined.
